(** * The challenge verifier of PythonFastAPICC

    A shallow embedding of the scavenger-hunt challenge of [main.py]
    (the handlers [challenge_submit], [challenge_key_start],
    [challenge_key_hash] and [challenge_prize] over the two process-wide
    dictionaries [NONCES] and [KEYS]) and of the client-side helper
    [compute_hash] of [challenge_hash.py].

    Conventions of the embedding:
    - a Python [int] is a [Z];
    - a Python [str] is the list of its code points ([list N]); [bytes] are
      [list byte];
    - a Python [dict] with string keys is a [gmap] when only lookups and
      stores matter ([NONCES], [KEYS]) and an association list when the
      order of the items matters ([SECRET_NUMBERS], the JSON payloads);
    - a handler is a computation in a state-and-exception monad: it maps the
      dictionaries before the request to an outcome (the returned payload or
      the raised exception) and the dictionaries after it;
    - the operating system's randomness is an input of the handler: the
      bytes [os.urandom] hands to [secrets.token_hex] or
      [secrets.token_urlsafe] for this request. *)

From Stdlib Require Import ZArith NArith List String Ascii Lia Bool.
From Stdlib.Strings Require Import Byte.
From Stdlib Require Import DecimalString DecimalPos DecimalZ.
From stdpp Require Import base option list gmap.
Import ListNotations.

Local Open Scope N_scope.

(** ** Python strings and bytes *)

Abbreviation str := (list N).

(** An ASCII literal of the source as a [str]. *)
Definition lit (s : string) : str :=
  List.map N_of_ascii (list_ascii_of_string s).

(** The decimal numeral of an [int], as [str(i)] and an f-string field
    [{i}] write it: decimal digits, with a leading minus sign for a negative
    number. CPython refuses the conversion of an [int] of too many digits,
    see [format_int]. *)
Definition str_of_int (i : Z) : str :=
  lit (NilZero.string_of_int (Z.to_int i)).

Definition byte_of_N (n : N) : byte :=
  match Byte.of_N (n mod 256) with
  | Some b => b
  | None => x00
  end.

(** The UTF-8 encoding of one code point; [None] where CPython raises
    [UnicodeEncodeError] (a surrogate) and for a number that is no code
    point. *)
Definition utf8_encode_cp (c : N) : option (list byte) :=
  if c <? 0x80 then Some [byte_of_N c]
  else if c <? 0x800 then
    Some [byte_of_N (N.lor 0xC0 (N.shiftr c 6));
          byte_of_N (N.lor 0x80 (N.land c 0x3F))]
  else if c <? 0x10000 then
    if (0xD800 <=? c) && (c <=? 0xDFFF) then None
    else
      Some [byte_of_N (N.lor 0xE0 (N.shiftr c 12));
            byte_of_N (N.lor 0x80 (N.land (N.shiftr c 6) 0x3F));
            byte_of_N (N.lor 0x80 (N.land c 0x3F))]
  else if c <? 0x110000 then
    Some [byte_of_N (N.lor 0xF0 (N.shiftr c 18));
          byte_of_N (N.lor 0x80 (N.land (N.shiftr c 12) 0x3F));
          byte_of_N (N.lor 0x80 (N.land (N.shiftr c 6) 0x3F));
          byte_of_N (N.lor 0x80 (N.land c 0x3F))]
  else None.

(** [s.encode()]: UTF-8, failing on the first code point that has no
    encoding. *)
Fixpoint encode (s : str) : option (list byte) :=
  match s with
  | [] => Some []
  | c :: s' =>
      match utf8_encode_cp c, encode s' with
      | Some bs, Some rest => Some (bs ++ rest)
      | _, _ => None
      end
  end.

(** Lower-case hexadecimal digits, as [bytes.hex] and [binascii.hexlify]
    write them. *)
Definition hex_digit (n : N) : N :=
  if n <? 10 then 48 + n else 87 + n.

Definition hex_of_byte (b : byte) : str :=
  let n := Byte.to_N b in
  [hex_digit (N.shiftr n 4); hex_digit (N.land n 0xF)].

Definition hexlify (bs : list byte) : str :=
  List.flat_map hex_of_byte bs.

(** ** SHA-256 (FIPS 180-4), the digest behind [hashlib.sha256] *)

Module SHA256.

Definition mask32 : N := 0xFFFFFFFF.

Definition add32 (x y : N) : N := (x + y) mod 0x100000000.

Definition rotr (n x : N) : N :=
  N.lor (N.shiftr x n) (N.land (N.shiftl x (32 - n)) mask32).

Definition Ch (x y z : N) : N :=
  N.lxor (N.land x y) (N.land (N.lxor x mask32) z).

Definition Maj (x y z : N) : N :=
  N.lxor (N.lxor (N.land x y) (N.land x z)) (N.land y z).

Definition Sigma0 (x : N) : N :=
  N.lxor (N.lxor (rotr 2 x) (rotr 13 x)) (rotr 22 x).

Definition Sigma1 (x : N) : N :=
  N.lxor (N.lxor (rotr 6 x) (rotr 11 x)) (rotr 25 x).

Definition sigma0 (x : N) : N :=
  N.lxor (N.lxor (rotr 7 x) (rotr 18 x)) (N.shiftr x 3).

Definition sigma1 (x : N) : N :=
  N.lxor (N.lxor (rotr 17 x) (rotr 19 x)) (N.shiftr x 10).

(** The first 64 primes, 2 to 311. *)
Definition is_prime (n : nat) : bool :=
  forallb (fun d => negb (n mod d =? 0)%nat) (List.seq 2 (n - 2)).

Definition primes : list N :=
  List.map N.of_nat (List.filter is_prime (List.seq 2 310)).

(** The integer cube root, one bit at a time from bit [i] down. *)
Fixpoint icbrt (i : nat) (x r : N) : N :=
  match i with
  | O => r
  | S i' =>
      let r' := r + N.shiftl 1 (N.of_nat i') in
      icbrt i' x (if r' * r' * r' <=? x then r' else r)
  end.

(** The round constants: the first 32 bits of the fractional parts of the
    cube roots of the first 64 primes. *)
Definition K : list N :=
  Eval vm_compute in
    List.map (fun p => icbrt 40 (N.shiftl p 96) 0 mod 0x100000000) primes.

(** The initial hash value: the first 32 bits of the fractional parts of
    the square roots of the first 8 primes. *)
Definition H0 : list N :=
  Eval vm_compute in
    List.map (fun p => N.sqrt (N.shiftl p 64) mod 0x100000000)
             (List.firstn 8 primes).

(** Big-endian bytes of a number, [n] of them. *)
Fixpoint be_bytes (n : nat) (x : N) : list N :=
  match n with
  | O => []
  | S n' => N.land (N.shiftr x (8 * N.of_nat n')) 0xFF :: be_bytes n' x
  end.

(** The message, a one bit, zeros up to 56 modulo 64, and the length in
    bits on eight bytes. *)
Definition pad (msg : list N) : list N :=
  let len := List.length msg in
  let zeros := ((64 - (len + 9) mod 64) mod 64)%nat in
  msg ++ [0x80] ++ List.repeat 0 zeros ++ be_bytes 8 (8 * N.of_nat len).

Fixpoint words (n : nat) (bs : list N) : list N :=
  match n with
  | O => []
  | S n' =>
      match bs with
      | b0 :: b1 :: b2 :: b3 :: rest =>
          (N.shiftl b0 24 + N.shiftl b1 16 + N.shiftl b2 8 + b3)
            :: words n' rest
      | _ => []
      end
  end.

(** The message schedule: [k] more words after the ones in [w]. *)
Fixpoint schedule (k : nat) (w : list N) : list N :=
  match k with
  | O => w
  | S k' =>
      let i := List.length w in
      let at_ j := List.nth (i - j) w 0 in
      schedule k'
        (w ++ [add32 (add32 (sigma1 (at_ 2%nat)) (at_ 7%nat))
                     (add32 (sigma0 (at_ 15%nat)) (at_ 16%nat))])
  end.

Record regs := Regs { ra : N; rb : N; rc : N; rd : N;
                      re : N; rf : N; rg : N; rh : N }.

Definition round (r : regs) (kw : N * N) : regs :=
  let t1 := add32 (add32 (add32 (rh r) (Sigma1 (re r)))
                         (add32 (Ch (re r) (rf r) (rg r)) (fst kw)))
                  (snd kw) in
  let t2 := add32 (Sigma0 (ra r)) (Maj (ra r) (rb r) (rc r)) in
  Regs (add32 t1 t2) (ra r) (rb r) (rc r) (add32 (rd r) t1) (re r) (rf r) (rg r).

Definition compress (h : regs) (block : list N) : regs :=
  let w := schedule 48 (words 16 block) in
  let r := List.fold_left round (List.combine K w) h in
  Regs (add32 (ra h) (ra r)) (add32 (rb h) (rb r))
       (add32 (rc h) (rc r)) (add32 (rd h) (rd r))
       (add32 (re h) (re r)) (add32 (rf h) (rf r))
       (add32 (rg h) (rg r)) (add32 (rh h) (rh r)).

Fixpoint blocks (n : nat) (bs : list N) : list (list N) :=
  match n with
  | O => []
  | S n' => List.firstn 64 bs :: blocks n' (List.skipn 64 bs)
  end.

Definition init : regs :=
  let h i := List.nth i H0 0 in
  Regs (h 0%nat) (h 1%nat) (h 2%nat) (h 3%nat)
       (h 4%nat) (h 5%nat) (h 6%nat) (h 7%nat).

Definition digest (msg : list byte) : list byte :=
  let p := pad (List.map Byte.to_N msg) in
  let r := List.fold_left compress (blocks (List.length p / 64) p) init in
  List.map byte_of_N
    (List.flat_map (be_bytes 4)
       [ra r; rb r; rc r; rd r; re r; rf r; rg r; rh r]).

End SHA256.

(** [hashlib.sha256(bs).hexdigest()]. *)
Definition sha256_hexdigest (bs : list byte) : str :=
  hexlify (SHA256.digest bs).

Definition ascii_bytes (s : string) : list byte :=
  List.map byte_of_ascii (list_ascii_of_string s).


(** ** Random tokens ([secrets]) *)

(** [secrets.token_bytes(nbytes)]: the next [nbytes] bytes of the operating
    system's randomness, here the entropy handed to the request. *)
Definition token_bytes (nbytes : nat) (entropy : list byte) : list byte :=
  take nbytes entropy.

(** [secrets.token_hex(nbytes)] is
    [binascii.hexlify(token_bytes(nbytes)).decode('ascii')]. *)
Definition token_hex (nbytes : nat) (entropy : list byte) : str :=
  hexlify (token_bytes nbytes entropy).

(** The alphabet of [base64.urlsafe_b64encode]: [A-Z], [a-z], [0-9], [-]
    and [_]. *)
Definition b64url_char (n : N) : N :=
  if n <? 26 then 65 + n
  else if n <? 52 then 97 + (n - 26)
  else if n <? 62 then 48 + (n - 52)
  else if n =? 62 then 45
  else 95.

Definition pad_char : N := 61.

Fixpoint urlsafe_b64encode (bs : list byte) : str :=
  match bs with
  | [] => []
  | [b0] =>
      let n0 := Byte.to_N b0 in
      [b64url_char (N.shiftr n0 2);
       b64url_char (N.shiftl (N.land n0 3) 4);
       pad_char; pad_char]
  | [b0; b1] =>
      let n0 := Byte.to_N b0 in
      let n1 := Byte.to_N b1 in
      [b64url_char (N.shiftr n0 2);
       b64url_char (N.lor (N.shiftl (N.land n0 3) 4) (N.shiftr n1 4));
       b64url_char (N.shiftl (N.land n1 15) 2);
       pad_char]
  | b0 :: b1 :: b2 :: rest =>
      let n0 := Byte.to_N b0 in
      let n1 := Byte.to_N b1 in
      let n2 := Byte.to_N b2 in
      b64url_char (N.shiftr n0 2)
        :: b64url_char (N.lor (N.shiftl (N.land n0 3) 4) (N.shiftr n1 4))
        :: b64url_char (N.lor (N.shiftl (N.land n1 15) 2) (N.shiftr n2 6))
        :: b64url_char (N.land n2 63)
        :: urlsafe_b64encode rest
  end.

(** [s.rstrip(c)] for a single character [c]: drop every trailing [c]. *)
Fixpoint rstrip (c : N) (s : str) : str :=
  match s with
  | [] => []
  | x :: s' =>
      match rstrip c s' with
      | [] => if x =? c then [] else [x]
      | r => x :: r
      end
  end.

(** [secrets.token_urlsafe(nbytes)] is
    [base64.urlsafe_b64encode(token_bytes(nbytes)).rstrip(b'=').decode('ascii')]. *)
Definition token_urlsafe (nbytes : nat) (entropy : list byte) : str :=
  rstrip pad_char (urlsafe_b64encode (token_bytes nbytes entropy)).

(** ** Exceptions and the handler monad *)

Inductive exn : Type :=
| HTTPException (status_code : Z) (detail : str)
| UnicodeEncodeError
| KeyError
| ValueError.

(** What running a piece of Python gives: a value or a raised exception. *)
Inductive outcome (A : Type) : Type :=
| Returns (a : A)
| Raises (e : exn).
Arguments Returns {A} a.
Arguments Raises {A} e.

#[global] Instance outcome_ret : MRet outcome := fun A a => Returns a.
#[global] Instance outcome_bind : MBind outcome := fun A B f m =>
  match m with
  | Returns a => f a
  | Raises e => Raises e
  end.

(** The two module-level dictionaries of [main.py], keyed by the client
    address that [get_remote_address] gives. *)
Record state : Type := State {
  NONCES : gmap str str;
  KEYS : gmap str str
}.

(** A handler body: from the dictionaries before to an outcome and the
    dictionaries after. A raised exception keeps the stores made before
    it. *)
Definition M (A : Type) : Type := state -> outcome A * state.

#[global] Instance M_ret : MRet M := fun A a st => (Returns a, st).
#[global] Instance M_bind : MBind M := fun A B f m st =>
  match m st with
  | (Returns a, st') => f a st'
  | (Raises e, st') => (Raises e, st')
  end.

Definition raise {A : Type} (e : exn) : M A := fun st => (Raises e, st).

(** A computation that touches no dictionary, run inside a handler. *)
Definition lift {A : Type} (o : outcome A) : M A := fun st => (o, st).

(** [NONCES.get(ip)] and [KEYS.get(ip)]: [None] for a missing key. *)
Definition NONCES_get (ip : str) : M (option str) :=
  fun st => (Returns (NONCES st !! ip), st).

Definition KEYS_get (ip : str) : M (option str) :=
  fun st => (Returns (KEYS st !! ip), st).

(** [NONCES[ip] = v] and [KEYS[ip] = v]. *)
Definition NONCES_setitem (ip v : str) : M unit :=
  fun st => (Returns tt, State (<[ip := v]> (NONCES st)) (KEYS st)).

Definition KEYS_setitem (ip v : str) : M unit :=
  fun st => (Returns tt, State (NONCES st) (<[ip := v]> (KEYS st))).

(** ** [challenge_hash.py] *)

Definition str_encode (s : str) : outcome (list byte) :=
  match encode s with
  | Some bs => Returns bs
  | None => Raises UnicodeEncodeError
  end.

(** [sys.int_info.default_max_str_digits]: an [int] of more decimal digits
    is not converted to a string, unless the interpreter is configured
    otherwise. *)
Definition int_max_str_digits : nat := 4300.

(** The number of decimal digits of an [int], its sign apart. *)
Definition decimal_digits (i : Z) : nat := length (str_of_int (Z.abs i)).

(** An f-string field [{i}] for an [int]: its decimal numeral, or
    [ValueError] where the digits exceed the interpreter's limit. *)
Definition format_int (i : Z) : outcome str :=
  if (decimal_digits i <=? int_max_str_digits)%nat
  then Returns (str_of_int i)
  else Raises ValueError.

Definition compute_hash (alpha beta gamma : Z) (nonce : str) : outcome str :=
  a ← format_int alpha;
  b ← format_int beta;
  c ← format_int gamma;
  let s := a ++ lit "-" ++ b ++ lit "-" ++ c ++ lit "-" ++ nonce in
  bs ← str_encode s;
  mret (sha256_hexdigest bs).

(** ** [main.py]: the challenge *)

Definition SECRET_NUMBERS : list (str * Z) :=
  [(lit "alpha", 7%Z); (lit "beta", 13%Z); (lit "gamma", 21%Z)].

(** [d[k]]: the value of the first item with key [k], [KeyError] without
    one. *)
Fixpoint getitem (d : list (str * Z)) (k : str) : outcome Z :=
  match d with
  | [] => Raises KeyError
  | (k', v) :: d' => if decide (k' = k) then Returns v else getitem d' k
  end.

Definition values (d : list (str * Z)) : list Z := List.map snd d.

(** The builtin [sum], from the start value 0. *)
Definition sum (l : list Z) : Z := List.fold_left Z.add l 0%Z.

(** The request bodies, as pydantic hands them to the handlers. *)
Record ChallengeSubmission : Type := { result : Z }.

Record HashSubmission : Type := { nonce : str; hash : str }.

(** A returned JSON object: its items in order; every value of the
    challenge's answers is a string. *)
Abbreviation payload := (list (str * str)).

Definition challenge_submit (data : ChallengeSubmission) : M payload :=
  let correct_value := sum (values SECRET_NUMBERS) in
  if decide (result data = correct_value) then
    mret [(lit "status", lit "WIN");
          (lit "message",
           0x1F389 :: lit " Congratulations! You solved the first API challenge!");
          (lit "prize", lit "Access granted to the second endpoint");
          (lit "next", lit "/challenge/key/start")]
  else
    raise (HTTPException 400 (lit "Incorrect result. Try again.")).

Definition challenge_key_start (ip : str) (entropy : list byte) : M payload :=
  let nonce := token_hex 16 entropy in
  _ ← NONCES_setitem ip nonce;
  mret [(lit "step", lit "hash");
        (lit "nonce", nonce);
        (lit "instructions",
         lit "Compute SHA256 of 'alpha-beta-gamma-<nonce>' and POST to /challenge/key/hash")].

(** Lines 288 and 289 of [main.py]: the digest the server expects for a
    nonce. *)
Definition expected_hash (nonce : str) : outcome str :=
  alpha ← getitem SECRET_NUMBERS (lit "alpha");
  a ← format_int alpha;
  beta ← getitem SECRET_NUMBERS (lit "beta");
  b ← format_int beta;
  gamma ← getitem SECRET_NUMBERS (lit "gamma");
  c ← format_int gamma;
  let s := a ++ lit "-" ++ b ++ lit "-" ++ c ++ lit "-" ++ nonce in
  bs ← str_encode s;
  mret (sha256_hexdigest bs).

Definition challenge_key_hash (ip : str) (data : HashSubmission)
    (entropy : list byte) : M payload :=
  stored ← NONCES_get ip;
  if decide (stored ≠ Some (nonce data)) then
    raise (HTTPException 400 (lit "Invalid or expired nonce"))
  else
    expected ← lift (expected_hash (nonce data));
    if decide (hash data ≠ expected) then
      raise (HTTPException 400 (lit "Incorrect hash"))
    else
      let key := token_urlsafe 16 entropy in
      _ ← KEYS_setitem ip key;
      mret [(lit "status", lit "OK");
            (lit "next", lit "/challenge/prize");
            (lit "key_hint", lit "Use query param ?key=...");
            (lit "key", key)].

(** [not key] for [key: str | None]: true for [None] and for the empty
    string. *)
Definition not_ (key : option str) : bool :=
  match key with
  | None => true
  | Some [] => true
  | Some (_ :: _) => false
  end.

Definition challenge_prize (ip : str) (key : option str) : M payload :=
  invalid ← (if not_ key then mret true
             else stored ← KEYS_get ip; mret (bool_decide (stored ≠ key)));
  if (invalid : bool) then
    raise (HTTPException 403 (lit "Valid key required"))
  else
    mret [(lit "prize", lit "API Master Badge");
          (lit "reward", lit "Certificate")].

(** ** The service as a transition system *)

(** The requests of the challenge, each with the client address that
    [get_remote_address] resolves for it and, where the handler draws a
    token, the entropy it draws from. *)
Inductive request : Type :=
| SubmitSum (ip : str) (data : ChallengeSubmission)
| KeyStart (ip : str) (entropy : list byte)
| SubmitHash (ip : str) (data : HashSubmission) (entropy : list byte)
| ClaimPrize (ip : str) (key : option str).

Definition handle (r : request) : M payload :=
  match r with
  | SubmitSum _ data => challenge_submit data
  | KeyStart ip entropy => challenge_key_start ip entropy
  | SubmitHash ip data entropy => challenge_key_hash ip data entropy
  | ClaimPrize ip key => challenge_prize ip key
  end.

(** [NONCES = {}] and [KEYS = {}] at import. *)
Definition initial : state := State ∅ ∅.

(** The dictionaries after serving the requests [rs], first to last. *)
Fixpoint run (rs : list request) (st : state) : state :=
  match rs with
  | [] => st
  | r :: rs' => run rs' (handle r st).2
  end.

Definition reachable (st : state) : Prop := ∃ rs, run rs initial = st.

(** ** The vocabulary of the specification *)

Definition IncorrectResult : exn :=
  HTTPException 400 (lit "Incorrect result. Try again.").
Definition InvalidNonce : exn :=
  HTTPException 400 (lit "Invalid or expired nonce").
Definition IncorrectHash : exn :=
  HTTPException 400 (lit "Incorrect hash").
Definition InvalidKey : exn :=
  HTTPException 403 (lit "Valid key required").

Definition succeeds {A : Type} (r : outcome A * state) : Prop :=
  ∃ a, r.1 = Returns a.

Definition fails_with {A : Type} (r : outcome A * state) (e : exn) : Prop :=
  r.1 = Raises e.

(** [sep.join(parts)]. *)
Fixpoint join (sep : str) (parts : list str) : str :=
  match parts with
  | [] => []
  | [p] => p
  | p :: ps => p ++ sep ++ join sep ps
  end.

(** The hex-encoded SHA-256 digest of a string, where the string has a
    UTF-8 encoding. *)
Definition sha256_hex (s : str) : option str :=
  sha256_hexdigest <$> encode s.

(** The value of a key of a returned JSON object. *)
Fixpoint payload_get (k : str) (p : payload) : option str :=
  match p with
  | [] => None
  | (k', v) :: p' => if decide (k' = k) then Some v else payload_get k p'
  end.

Definition is_hexdigit (c : N) : bool :=
  (48 <=? c) && (c <=? 57) || (97 <=? c) && (c <=? 102).

(** The characters the documentation of [secrets.token_urlsafe] names:
    letters, digits, [-] and [_]. *)
Definition is_urlsafe (c : N) : bool :=
  (65 <=? c) && (c <=? 90) || (97 <=? c) && (c <=? 122)
  || (48 <=? c) && (c <=? 57) || (c =? 45) || (c =? 95).

Definition is_ascii (c : N) : bool := c <? 0x80.

(** The value of a hexadecimal digit. *)
Definition unhex_digit (c : N) : N := if c <? 58 then c - 48 else c - 87.


(** Whether a request of the history is the nonce-issuing step, or a sum
    submission, of the client [ip]. *)
Definition is_key_start_of (ip : str) (r : request) : bool :=
  match r with
  | KeyStart ip' _ => bool_decide (ip' = ip)
  | _ => false
  end.

Definition is_submit_sum_of (ip : str) (r : request) : bool :=
  match r with
  | SubmitSum ip' _ => bool_decide (ip' = ip)
  | _ => false
  end.

(** Whether some hash submission of the client [ip] was accepted while
    serving [rs] from [st]. *)
Fixpoint hash_accepted (ip : str) (rs : list request) (st : state) : bool :=
  match rs with
  | [] => false
  | r :: rs' =>
      match r, (handle r st).1 with
      | SubmitHash ip' _ _, Returns _ => bool_decide (ip' = ip)
      | _, _ => false
      end
      || hash_accepted ip rs' (handle r st).2
  end.

(** ** Sample data *)

Module Sample.

Definition alice : str := lit "10.0.0.1".
Definition bob : str := lit "10.0.0.2".

(** The bytes 0, 1, ..., 15 and 16, 17, ..., 31. *)
Definition entropy1 : list byte :=
  List.map (fun n => byte_of_N (N.of_nat n)) (List.seq 0 16).
Definition entropy2 : list byte :=
  List.map (fun n => byte_of_N (N.of_nat n)) (List.seq 16 16).

Definition nonce1 : str := lit "000102030405060708090a0b0c0d0e0f".
Definition hash1 : str :=
  lit "0856350d204c04291db5c4c829299c0fa7c2605031c644ad0b7062c423a58fe7".
Definition key2 : str := lit "EBESExQVFhcYGRobHB0eHw".

(** Alice asks for a nonce, then submits its hash. *)
Definition started : state := run [KeyStart alice entropy1] initial.
Definition verified : state :=
  run [KeyStart alice entropy1;
       SubmitHash alice {| nonce := nonce1; hash := hash1 |} entropy2]
      initial.

End Sample.

(** ** [main.py]: the secret endpoints *)

(** A returned JSON object whose values are integers. *)
Definition challenge_alpha : M (list (str * Z)) :=
  v ← lift (getitem SECRET_NUMBERS (lit "alpha"));
  mret [(lit "value", v)].

Definition challenge_beta : M (list (str * Z)) :=
  v ← lift (getitem SECRET_NUMBERS (lit "beta"));
  mret [(lit "value", v)].

Definition challenge_gamma : M (list (str * Z)) :=
  v ← lift (getitem SECRET_NUMBERS (lit "gamma"));
  mret [(lit "value", v)].

(** ** Clients and entropy of a request *)

(** The address a request comes from. *)
Definition client_of (r : request) : str :=
  match r with
  | SubmitSum ip _ => ip
  | KeyStart ip _ => ip
  | SubmitHash ip _ _ => ip
  | ClaimPrize ip _ => ip
  end.

(** The operating system hands a token-drawing request at least the 16
    bytes it asks for. *)
Definition entropy_ok (r : request) : Prop :=
  match r with
  | KeyStart _ entropy => (16 ≤ length entropy)%nat
  | SubmitHash _ _ entropy => (16 ≤ length entropy)%nat
  | _ => True
  end.

(** Every stored nonce is 32 hexadecimal digits and every stored key 22
    characters of the URL-safe alphabet. *)
Definition tokens_shaped (st : state) : Prop :=
  (∀ ip n, NONCES st !! ip = Some n →
     length n = 32%nat ∧ forallb is_hexdigit n = true)
  ∧ (∀ ip k, KEYS st !! ip = Some k →
       length k = 22%nat ∧ forallb is_urlsafe k = true).

(** A client with a key has a nonce. *)
Definition keys_have_nonces (st : state) : Prop :=
  ∀ ip, is_Some (KEYS st !! ip) → is_Some (NONCES st !! ip).

(** The string [compute_hash] encodes and hashes, line 6 of
    [challenge_hash.py], where its three integers are within the digit
    limit. *)
Definition hash_input (alpha beta gamma : Z) (nonce : str) : str :=
  str_of_int alpha ++ lit "-" ++ str_of_int beta ++ lit "-"
    ++ str_of_int gamma ++ lit "-" ++ nonce.

Definition is_digit (c : N) : bool := (48 <=? c) && (c <=? 57).

(** A decimal numeral as [str(int)] writes it: digits, at least one, after
    an optional minus sign. *)
Definition is_numeral (s : str) : Prop :=
  ∃ ds, ds ≠ [] ∧ forallb is_digit ds = true ∧ (s = ds ∨ s = 45 :: ds).

(** ** [challenge_hash.py]: the command line *)

Module CLI.

(** The parsed arguments, [--alpha], [--beta], [--gamma] and [--nonce]. *)
Record Namespace : Type := { alpha : Z; beta : Z; gamma : Z; nonce : str }.

(** What a run of the script leaves: the lines printed to standard output
    and to standard error, and the exit status. *)
Record process : Type := {
  stdout : list str;
  stderr : list str;
  status : Z
}.

Definition dquote : N := 34.

(** The second printed line, the f-string of line 18: the nonce and the
    digest are written between double quotes as they are. *)
Definition summary (n h : str) : str :=
  lit "{" ++ [dquote] ++ lit "nonce" ++ [dquote] ++ lit ":" ++ [dquote]
    ++ n ++ [dquote] ++ lit "," ++ [dquote] ++ lit "hash" ++ [dquote]
    ++ lit ":" ++ [dquote] ++ h ++ [dquote] ++ lit "}".

Section Script.

(** What [print] does with a line on standard output, given the lines
    printed so far: it takes the line, or raises, with [UnicodeEncodeError]
    where the encoding of the stream has no bytes for the text. *)
Variable print_stdout : list str → str → outcome unit.

(** [str(e)], the message CPython gives an exception. *)
Variable exn_str : exn → str.

(** [print(line)]: the outcome and the lines on standard output after
    it. *)
Definition print (line : str) (out : list str) : outcome unit * list str :=
  match print_stdout out line with
  | Returns _ => (Returns tt, out ++ [line])
  | Raises e => (Raises e, out)
  end.

(** [main()] after [parse_args]: the outcome and the lines printed before
    it. *)
Definition main (args : Namespace) : outcome unit * list str :=
  match compute_hash (alpha args) (beta args) (gamma args) (nonce args) with
  | Raises e => (Raises e, [])
  | Returns h =>
      match print h [] with
      | (Returns _, out) => print (summary (nonce args) h) out
      | (Raises e, out) => (Raises e, out)
      end
  end.

(** The [__main__] block around [main()]; standard error escapes what it
    cannot encode, so the error line is always written. *)
Definition script (args : Namespace) : process :=
  match main args with
  | (Returns _, out) => {| stdout := out; stderr := []; status := 0 |}
  | (Raises e, out) =>
      {| stdout := out;
         stderr := [lit "error: " ++ exn_str e];
         status := 1 |}
  end.

End Script.

End CLI.

(** ** [main.py]: accounts and lessons *)

Module Lessons.

(** A value of a decoded token's claims. *)
Inductive jval : Type :=
| JStr (s : str)
| JInt (z : Z).

(** [HTTPException] with its optional headers. *)
Record http_error : Type := HTTPError {
  status_code : Z;
  detail : str;
  headers : option (list (str * str))
}.

(** What a handler gives: its answer, a raised [HTTPException], or any
    other exception, which the client sees as a server error. *)
Inductive res (A : Type) : Type :=
| Ok (a : A)
| Err (e : http_error)
| Crash.
Arguments Ok {A} a.
Arguments Err {A} e.
Arguments Crash {A}.

(** The one entry of [fake_users_db]; both fields are [os.getenv] results,
    [None] for an unset variable. *)
Record UserInDB : Type := {
  username : option str;
  hashed_password : option str
}.

Record Lesson : Type := {
  id : Z;
  title : str;
  description : str;
  task : str;
  endpoint : str
}.



(** [lessons_db] at import. *)
Definition lessons_db0 : list Lesson :=
  [ {| id := 1; title := lit "GET Basics";
       description := lit "Learn how GET requests work";
       task := lit "Fetch this lesson using GET";
       endpoint := lit "/lessons" |};
    {| id := 2; title := lit "POST Basics";
       description := lit "Learn how POST requests work";
       task := lit "Create a new lesson using POST";
       endpoint := lit "/lessons" |};
    {| id := 3; title := lit "Auth";
       description := lit "Learn authentication";
       task := lit "Login and access protected route";
       endpoint := lit "/protected" |} ].

(** [d.get(k)] on the items of a dictionary. *)
Fixpoint dict_get {V : Type} (k : str) (d : list (str * V)) : option V :=
  match d with
  | [] => None
  | (k', v) :: d' => if decide (k' = k) then Some v else dict_get k d'
  end.

Section Config.

(** The environment: [DEMO_USERNAME] and [DEMO_PASSWORD]. *)
Variables DEMO_USERNAME DEMO_PASSWORD : option str.

(** [jwt.decode(token, SECRET_KEY, algorithms=[ALGORITHM])]: the claims, or
    [None] where it raises [JWTError]. *)
Variable jwt_decode : str → option (list (str * jval)).

(** [create_access_token] at the configured expiry, as a function of the
    [data] dictionary: the token, or [None] where it raises. *)
Variable create_access_token : list (str * option str) → option str.

Definition fake_users_db : list (option str * UserInDB) :=
  [(DEMO_USERNAME,
    {| username := DEMO_USERNAME; hashed_password := DEMO_PASSWORD |})].

(** [fake_users_db.get(k)] for a key of any type the handlers look up: a
    string, or a claim value that is no string. *)
Fixpoint users_get (k : jval) (db : list (option str * UserInDB))
    : option UserInDB :=
  match db with
  | [] => None
  | (k', u) :: db' =>
      match k, k' with
      | JStr s, Some s' => if decide (s' = s) then Some u else users_get k db'
      | _, _ => users_get k db'
      end
  end.

Definition credentials_exception : http_error :=
  HTTPError 401 (lit "Could not validate credentials")
            (Some [(lit "WWW-Authenticate", lit "Bearer")]).

Definition get_current_user (token : str) : res UserInDB :=
  match jwt_decode token with
  | None => Err credentials_exception
  | Some payload =>
      match dict_get (lit "sub") payload with
      | None => Err credentials_exception
      | Some username =>
          match users_get username fake_users_db with
          | None => Err credentials_exception
          | Some user => Ok user
          end
      end
  end.


(** A lesson handler: from [lessons_db] before to an answer and
    [lessons_db] after. *)
Definition get_lessons (db : list Lesson) : res (list Lesson) * list Lesson :=
  (Ok db, db).

(** [create_lesson] behind its dependency [get_current_user]: the body runs
    only when the dependency returns a user. *)
Definition create_lesson (token : str) (lesson : Lesson) (db : list Lesson)
    : res Lesson * list Lesson :=
  match get_current_user token with
  | Ok user => (Ok lesson, db ++ [lesson])
  | Err e => (Err e, db)
  | Crash => (Crash, db)
  end.

Definition protected_route (token : str) : res (list (str * option str)) :=
  match get_current_user token with
  | Ok user =>
      Ok [(lit "message", Some (lit "You accessed a protected endpoint!"));
          (lit "user", username user);
          (lit "lesson", Some (lit "This demonstrates JWT authentication"))]
  | Err e => Err e
  | Crash => Crash
  end.

Inductive lesson_request : Type :=
| GetLessons
| CreateLesson (token : str) (lesson : Lesson).

Definition lesson_step (db : list Lesson) (r : lesson_request) : list Lesson :=
  match r with
  | GetLessons => (get_lessons db).2
  | CreateLesson token lesson => (create_lesson token lesson db).2
  end.

(** The lessons the accepted creations of a history carry, in order. *)
Fixpoint created (rs : list lesson_request) : list Lesson :=
  match rs with
  | [] => []
  | GetLessons :: rs' => created rs'
  | CreateLesson token lesson :: rs' =>
      match get_current_user token with
      | Ok _ => lesson :: created rs'
      | _ => created rs'
      end
  end.

End Config.

End Lessons.

(** * Properties *)

(** ** The primitives agree with their references *)

Example sha256_constants :
  length SHA256.K = 64%nat
  ∧ List.nth 0 SHA256.K 0 = 0x428a2f98 ∧ List.nth 63 SHA256.K 0 = 0xc67178f2
  ∧ List.nth 0 SHA256.H0 0 = 0x6a09e667 ∧ List.nth 7 SHA256.H0 0 = 0x5be0cd19.
Proof. vm_compute. auto. Qed.

Example sha256_empty :
  sha256_hexdigest [] =
  lit "e3b0c44298fc1c149afbf4c8996fb92427ae41e4649b934ca495991b7852b855".
Proof. vm_compute. reflexivity. Qed.

Example sha256_abc :
  sha256_hexdigest (ascii_bytes "abc") =
  lit "ba7816bf8f01cfea414140de5dae2223b00361a396177a9cb410ff61f20015ad".
Proof. vm_compute. reflexivity. Qed.

Example sha256_two_blocks :
  sha256_hexdigest
    (ascii_bytes "abcdbcdecdefdefgefghfghighijhijkijkljklmklmnlmnomnopnopq") =
  lit "248d6a61d20638b8e5c026930c3e6039a33ce45964ff2167f6ecedd419db06c1".
Proof. vm_compute. reflexivity. Qed.

Example encode_non_ascii :
  hexlify <$> encode [0xE9; 0x20AC; 0x1F600] = Some (lit "c3a9e282acf09f9880").
Proof. vm_compute. reflexivity. Qed.

Example encode_surrogate : encode [0x61; 0xDCFF] = None.
Proof. reflexivity. Qed.

Example str_of_int_samples :
  str_of_int 0 = lit "0" ∧ str_of_int (-15) = lit "-15"
  ∧ str_of_int 1203 = lit "1203".
Proof. vm_compute. auto. Qed.

Example token_hex_sample : token_hex 16 Sample.entropy1 = Sample.nonce1.
Proof. vm_compute. reflexivity. Qed.

Example token_urlsafe_sample :
  token_urlsafe 16 Sample.entropy1 = lit "AAECAwQFBgcICQoLDA0ODw"
  ∧ token_urlsafe 16 Sample.entropy2 = Sample.key2.
Proof. vm_compute. auto. Qed.

Example compute_hash_abc123 :
  compute_hash 7 13 21 (lit "abc123") =
  Returns (lit "dba1584d6f77d122651bd314f01645c5051f827e4198e16db701078ffa56f920").
Proof. vm_compute. reflexivity. Qed.

Example verified_keys :
  KEYS Sample.verified !! Sample.alice = Some Sample.key2.
Proof. vm_compute. reflexivity. Qed.

(** ** Strings: encoding, digits, tokens *)

Lemma encode_ascii (s : str) :
  forallb is_ascii s = true → encode s = Some (List.map byte_of_N s).
Proof.
  induction s as [|c s IH]; simpl; [done|].
  intros [Hc Hs]%andb_prop. rewrite (IH Hs).
  unfold utf8_encode_cp. unfold is_ascii in Hc. by rewrite Hc.
Qed.

Lemma encode_app (s t : str) :
  encode (s ++ t) =
  match encode s, encode t with
  | Some bs, Some bt => Some (bs ++ bt)
  | _, _ => None
  end.
Proof.
  induction s as [|c s IH]; simpl.
  - by destruct (encode t).
  - rewrite IH. destruct (utf8_encode_cp c), (encode s), (encode t);
      try done. by rewrite app_assoc.
Qed.

Lemma hexdigit_ascii (c : N) : is_hexdigit c = true → is_ascii c = true.
Proof.
  unfold is_hexdigit, is_ascii.
  rewrite orb_true_iff, !andb_true_iff, !N.leb_le, N.ltb_lt. lia.
Qed.

Lemma urlsafe_ascii (c : N) : is_urlsafe c = true → is_ascii c = true.
Proof.
  unfold is_urlsafe, is_ascii.
  rewrite !orb_true_iff, !andb_true_iff, !N.leb_le, !N.eqb_eq, N.ltb_lt. lia.
Qed.

Lemma forallb_impl {A : Type} (p q : A → bool) (l : list A) :
  (∀ x, p x = true → q x = true) → forallb p l = true → forallb q l = true.
Proof.
  intros Hpq. induction l as [|x l IH]; simpl; [done|].
  intros [Hx Hl]%andb_prop. by rewrite (Hpq x Hx), (IH Hl).
Qed.

Lemma hexdigits_encodable (s : str) :
  forallb is_hexdigit s = true → is_Some (encode s).
Proof.
  intros H. rewrite encode_ascii; [by eexists|].
  by apply (forallb_impl is_hexdigit), H; apply hexdigit_ascii.
Qed.

Lemma hex_of_byte_hexdigits (b : byte) :
  forallb is_hexdigit (hex_of_byte b) = true.
Proof. by destruct b. Qed.

Lemma hexlify_hexdigits (bs : list byte) :
  forallb is_hexdigit (hexlify bs) = true.
Proof.
  induction bs as [|b bs IH]; [done|].
  unfold hexlify in *. cbn [flat_map]. rewrite forallb_app, IH.
  by rewrite hex_of_byte_hexdigits.
Qed.

Lemma length_hexlify (bs : list byte) :
  length (hexlify bs) = (2 * length bs)%nat.
Proof.
  induction bs as [|b bs IH]; [done|].
  unfold hexlify in *. cbn [flat_map]. rewrite length_app, IH. simpl. lia.
Qed.

(** A nonce of [token_hex(16)] is 32 hexadecimal digits. *)
Lemma token_hex_16 (entropy : list byte) :
  (16 ≤ length entropy)%nat →
  length (token_hex 16 entropy) = 32%nat
  ∧ forallb is_hexdigit (token_hex 16 entropy) = true.
Proof.
  intros Hlen. unfold token_hex, token_bytes. split.
  - rewrite length_hexlify, length_take. lia.
  - apply hexlify_hexdigits.
Qed.

(** Two hexadecimal digits determine their byte, so distinct draws give
    distinct nonces. *)
Lemma hex_of_byte_inj (b b' : byte) : hex_of_byte b = hex_of_byte b' → b = b'.
Proof.
  intros H.
  assert (Hrt : ∀ x : byte,
    match hex_of_byte x with
    | [hi; lo] => Byte.of_N (16 * unhex_digit hi + unhex_digit lo)
    | _ => None
    end = Some x) by (intros x; by destruct x).
  pose proof (Hrt b) as Hb. pose proof (Hrt b') as Hb'.
  rewrite H in Hb. congruence.
Qed.

Lemma hexlify_inj (bs bs' : list byte) : hexlify bs = hexlify bs' → bs = bs'.
Proof.
  revert bs'. induction bs as [|b bs IH]; intros [|b' bs'] H; try done.
  unfold hexlify in H. cbn [flat_map] in H.
  change (flat_map hex_of_byte bs) with (hexlify bs) in H.
  change (flat_map hex_of_byte bs') with (hexlify bs') in H.
  injection H as H1 H2 H3.
  f_equal; [apply hex_of_byte_inj|by apply IH].
  unfold hex_of_byte. by rewrite H1, H2.
Qed.

Lemma b64url_char_urlsafe (n : N) : is_urlsafe (b64url_char n) = true.
Proof.
  unfold is_urlsafe, b64url_char.
  repeat (case_match; try rewrite ?N.ltb_lt, ?N.ltb_ge, ?N.eqb_eq,
            ?N.eqb_neq in *);
    rewrite !orb_true_iff, !andb_true_iff, !N.leb_le, !N.eqb_eq; lia.
Qed.

Lemma urlsafe_not_pad (c : N) : is_urlsafe c = true → (c =? pad_char) = false.
Proof.
  unfold is_urlsafe, pad_char.
  rewrite !orb_true_iff, !andb_true_iff, !N.leb_le, !N.eqb_eq, N.eqb_neq. lia.
Qed.

Lemma rstrip_pads (k : nat) : rstrip pad_char (List.repeat pad_char k) = [].
Proof. induction k as [|k IH]; simpl; [done|]. by rewrite IH. Qed.

Lemma rstrip_data_pads (data : str) (k : nat) :
  forallb is_urlsafe data = true →
  rstrip pad_char (data ++ List.repeat pad_char k) = data.
Proof.
  induction data as [|c data IH]; simpl.
  - intros _. apply rstrip_pads.
  - intros [Hc Hd]%andb_prop. rewrite (IH Hd).
    destruct data; [|done]. by rewrite (urlsafe_not_pad c Hc).
Qed.

(** Base64 of a byte string: data characters of the URL-safe alphabet,
    then at most two pad characters. *)
Lemma urlsafe_b64encode_shape (bs : list byte) :
  ∃ data k, urlsafe_b64encode bs = data ++ List.repeat pad_char k
    ∧ forallb is_urlsafe data = true
    ∧ (length data = (length bs * 4 + 2) / 3)%nat.
Proof.
  remember (length bs) as n eqn:Hn. revert bs Hn.
  induction n as [n IH] using lt_wf_ind. intros bs Hn.
  destruct bs as [|b0 [|b1 [|b2 rest]]].
  - subst n. by exists [], 0%nat.
  - eexists [_; _], 2%nat. cbn [urlsafe_b64encode app List.repeat forallb].
    rewrite !b64url_char_urlsafe. subst n. auto.
  - eexists [_; _; _], 1%nat. cbn [urlsafe_b64encode app List.repeat forallb].
    rewrite !b64url_char_urlsafe. subst n. auto.
  - destruct (IH (length rest)) with (bs := rest) as (data & k & Heq & Hsafe & Hlen);
      [subst n; simpl; lia|done|].
    eexists (_ :: _ :: _ :: _ :: data), k.
    cbn [urlsafe_b64encode]. rewrite Heq. cbn [app forallb].
    rewrite !b64url_char_urlsafe, Hsafe. repeat split.
    subst n. cbn [length]. rewrite Hlen.
    replace (S (S (S (length rest))) * 4 + 2)%nat
      with ((length rest * 4 + 2) + 4 * 3)%nat by lia.
    rewrite Nat.div_add by lia. lia.
Qed.

(** A key of [token_urlsafe(16)] is 22 characters of the URL-safe
    alphabet. *)
Lemma token_urlsafe_16 (entropy : list byte) :
  (16 ≤ length entropy)%nat →
  length (token_urlsafe 16 entropy) = 22%nat
  ∧ forallb is_urlsafe (token_urlsafe 16 entropy) = true.
Proof.
  intros Hlen. unfold token_urlsafe.
  destruct (urlsafe_b64encode_shape (token_bytes 16 entropy))
    as (data & k & Heq & Hsafe & Hdata).
  rewrite Heq, rstrip_data_pads by done. split; [|done].
  rewrite Hdata. unfold token_bytes. rewrite length_take.
  by replace (16 `min` length entropy)%nat with 16%nat by lia.
Qed.


(** ** What each handler does, case by case *)

Lemma sum_SECRET_NUMBERS : sum (values SECRET_NUMBERS) = 41%Z.
Proof. reflexivity. Qed.

Lemma challenge_submit_cases (data : ChallengeSubmission) (st : state) :
  (result data = 41%Z
   ∧ ∃ p, challenge_submit data st = (Returns p, st)
       ∧ payload_get (lit "status") p = Some (lit "WIN")
       ∧ payload_get (lit "next") p = Some (lit "/challenge/key/start")
       ∧ payload_get (lit "nonce") p = None)
  ∨ (result data ≠ 41%Z
     ∧ challenge_submit data st = (Raises IncorrectResult, st)).
Proof.
  unfold challenge_submit. rewrite sum_SECRET_NUMBERS.
  case_decide; [left|right]; (split; [done|]).
  - eexists. split; [reflexivity|]. by vm_compute.
  - reflexivity.
Qed.

Lemma challenge_key_start_eq (ip : str) (entropy : list byte) (st : state) :
  ∃ p, challenge_key_start ip entropy st =
         (Returns p,
          State (<[ip := token_hex 16 entropy]> (NONCES st)) (KEYS st))
     ∧ payload_get (lit "nonce") p = Some (token_hex 16 entropy)
     ∧ payload_get (lit "step") p = Some (lit "hash").
Proof. eexists. split; [reflexivity|]. split; reflexivity. Qed.

Lemma fstring_secrets (n : str) :
  str_of_int 7 ++ lit "-" ++ str_of_int 13 ++ lit "-" ++ str_of_int 21
    ++ lit "-" ++ n = lit "7-13-21-" ++ n.
Proof. reflexivity. Qed.

Lemma expected_hash_sha256 (n : str) :
  expected_hash n =
  match sha256_hex (lit "7-13-21-" ++ n) with
  | Some h => Returns h
  | None => Raises UnicodeEncodeError
  end.
Proof.
  assert (H : expected_hash n =
              (bs ← str_encode (lit "7-13-21-" ++ n);
               mret (sha256_hexdigest bs))) by reflexivity.
  rewrite H. unfold sha256_hex, str_encode.
  by destruct (encode (lit "7-13-21-" ++ n)).
Qed.


Lemma encode_secrets_prefix (n : str) :
  is_Some (encode n) → is_Some (encode (lit "7-13-21-" ++ n)).
Proof.
  intros [bs Hbs]. rewrite encode_app, Hbs.
  rewrite (encode_ascii (lit "7-13-21-")) by reflexivity. by eexists.
Qed.

Lemma challenge_key_hash_unfold (ip : str) (data : HashSubmission)
    (entropy : list byte) (st : state) :
  challenge_key_hash ip data entropy st =
  if decide (NONCES st !! ip ≠ Some (nonce data)) then (Raises InvalidNonce, st)
  else
    match expected_hash (nonce data) with
    | Raises e => (Raises e, st)
    | Returns h =>
        if decide (hash data ≠ h) then (Raises IncorrectHash, st)
        else
          (Returns [(lit "status", lit "OK");
                    (lit "next", lit "/challenge/prize");
                    (lit "key_hint", lit "Use query param ?key=...");
                    (lit "key", token_urlsafe 16 entropy)],
           State (NONCES st) (<[ip := token_urlsafe 16 entropy]> (KEYS st)))
    end.
Proof.
  unfold challenge_key_hash, NONCES_get, KEYS_setitem, lift, raise.
  unfold mbind, M_bind, mret, M_ret. cbn beta iota.
  case_decide; [reflexivity|].
  destruct (expected_hash (nonce data)) as [h|e]; [|reflexivity].
  case_decide; reflexivity.
Qed.

Lemma challenge_key_hash_cases (ip : str) (data : HashSubmission)
    (entropy : list byte) (st : state) :
  let r := challenge_key_hash ip data entropy st in
  (NONCES st !! ip ≠ Some (nonce data) ∧ r = (Raises InvalidNonce, st))
  ∨ (NONCES st !! ip = Some (nonce data)
     ∧ match expected_hash (nonce data) with
       | Raises e => r = (Raises e, st)
       | Returns h =>
           (hash data ≠ h ∧ r = (Raises IncorrectHash, st))
           ∨ (hash data = h
              ∧ ∃ p, r = (Returns p,
                          State (NONCES st)
                                (<[ip := token_urlsafe 16 entropy]> (KEYS st)))
                  ∧ payload_get (lit "key") p = Some (token_urlsafe 16 entropy)
                  ∧ payload_get (lit "status") p = Some (lit "OK"))
       end).
Proof.
  intros r. subst r. rewrite challenge_key_hash_unfold.
  case_decide as Hn; [by left|right].
  split; [by destruct (decide (NONCES st !! ip = Some (nonce data)))|].
  destruct (expected_hash (nonce data)) as [h|e]; [|done].
  case_decide as Hh; [by left|right].
  split; [by destruct (decide (hash data = h))|].
  eexists. split; [reflexivity|]. split; reflexivity.
Qed.

Lemma challenge_prize_unfold (ip : str) (key : option str) (st : state) :
  challenge_prize ip key st =
  if not_ key || bool_decide (KEYS st !! ip ≠ key)
  then (Raises InvalidKey, st)
  else (Returns [(lit "prize", lit "API Master Badge");
                 (lit "reward", lit "Certificate")], st).
Proof.
  unfold challenge_prize, KEYS_get, raise.
  unfold mbind, M_bind, mret, M_ret.
  destruct (not_ key); cbn beta iota; [reflexivity|].
  rewrite orb_false_l. by case_bool_decide.
Qed.

Lemma challenge_prize_cases (ip : str) (key : option str) (st : state) :
  let r := challenge_prize ip key st in
  ((key = None ∨ key = Some [] ∨ KEYS st !! ip ≠ key)
   ∧ r = (Raises InvalidKey, st))
  ∨ (key ≠ None ∧ key ≠ Some [] ∧ KEYS st !! ip = key
     ∧ ∃ p, r = (Returns p, st)
         ∧ payload_get (lit "prize") p = Some (lit "API Master Badge")
         ∧ payload_get (lit "reward") p = Some (lit "Certificate")).
Proof.
  intros r. subst r. rewrite challenge_prize_unfold.
  destruct key as [[|c k]|]; cbn [not_ orb].
  - left. auto.
  - case_bool_decide as Hk; [left; auto|right].
    repeat split; try done.
    eexists. split; [reflexivity|]. split; reflexivity.
  - left. auto.
Qed.

(** The dictionaries after a request: untouched, or one store. *)
Lemma handle_state (r : request) (st : state) :
  (handle r st).2 = st
  ∨ (∃ ip entropy, r = KeyStart ip entropy
       ∧ (handle r st).2 =
           State (<[ip := token_hex 16 entropy]> (NONCES st)) (KEYS st))
  ∨ (∃ ip data entropy, r = SubmitHash ip data entropy
       ∧ succeeds (handle r st)
       ∧ (handle r st).2 =
           State (NONCES st) (<[ip := token_urlsafe 16 entropy]> (KEYS st))).
Proof.
  destruct r as [ip data|ip entropy|ip data entropy|ip key]; cbn [handle].
  - left. by destruct (challenge_submit_cases data st)
      as [[_ (p & -> & _)]|[_ ->]].
  - right; left. exists ip, entropy. split; [done|].
    by destruct (challenge_key_start_eq ip entropy st) as (p & -> & _).
  - destruct (challenge_key_hash_cases ip data entropy st)
      as [[_ Hr]|[_ Hr]]; [left; by rewrite Hr|].
    destruct (expected_hash (nonce data)) as [h|e]; [|left; by rewrite Hr].
    destruct Hr as [[_ Hr]|[_ (p & Hr & _)]]; [left; by rewrite Hr|].
    right; right. exists ip, data, entropy.
    rewrite Hr. repeat split. by exists p.
  - left. by destruct (challenge_prize_cases ip key st)
      as [[_ ->]|(_ & _ & _ & p & -> & _)].
Qed.

(** ** Invariant: every stored nonce is a string of hexadecimal digits *)




Lemma run_app (rs rs' : list request) (st : state) :
  run (rs ++ rs') st = run rs' (run rs st).
Proof. revert st. induction rs as [|r rs IH]; intros st; [done|]. apply IH. Qed.

Lemma reachable_step (r : request) (st : state) :
  reachable st → reachable (handle r st).2.
Proof. intros [rs <-]. exists (rs ++ [r]). by rewrite run_app. Qed.

(** ** Decimal renderings and digests *)

Lemma to_int_nonnil (z : Z) :
  Z.to_int z ≠ Decimal.Pos Decimal.Nil ∧ Z.to_int z ≠ Decimal.Neg Decimal.Nil.
Proof.
  destruct z as [|p|p]; cbn [Z.to_int]; split; try done;
    intros [= H]; by apply (DecimalPos.Unsigned.to_uint_nonnil p).
Qed.

(** [str_of_int] writes a numeral that reads back as the number. *)
Lemma str_of_int_reads_back (z : Z) :
  ∃ s, str_of_int z = lit s
     ∧ Z.of_int <$> NilZero.int_of_string s = Some z.
Proof.
  exists (NilZero.string_of_int (Z.to_int z)). split; [done|].
  destruct (to_int_nonnil z) as [Hp Hn].
  rewrite NilZero.isi by done. cbn. by rewrite DecimalZ.of_to.
Qed.

Lemma string_of_uint_ascii (d : Decimal.uint) :
  forallb is_ascii (lit (NilEmpty.string_of_uint d)) = true.
Proof. induction d; cbn; done. Qed.

Lemma str_of_int_ascii (z : Z) : forallb is_ascii (str_of_int z) = true.
Proof.
  unfold str_of_int.
  destruct (Z.to_int z) as [d|d]; cbn [NilZero.string_of_int].
  - destruct d; try done; apply string_of_uint_ascii.
  - change (forallb is_ascii (45 :: lit (NilZero.string_of_uint d)) = true).
    cbn [forallb]. destruct d; try done; apply string_of_uint_ascii.
Qed.

Lemma str_of_int_encodable (z : Z) : is_Some (encode (str_of_int z)).
Proof. rewrite encode_ascii by apply str_of_int_ascii. by eexists. Qed.

(** A SHA-256 digest is 32 bytes, its hexadecimal form 64 digits. *)
Lemma sha256_hexdigest_shape (bs : list byte) :
  length (sha256_hexdigest bs) = 64%nat
  ∧ forallb is_hexdigit (sha256_hexdigest bs) = true.
Proof.
  unfold sha256_hexdigest. split; [|apply hexlify_hexdigits].
  rewrite length_hexlify. unfold SHA256.digest.
  by rewrite length_map.
Qed.

Lemma join_hyphen (a b c d : str) :
  join (lit "-") [a; b; c; d] = a ++ lit "-" ++ b ++ lit "-" ++ c ++ lit "-" ++ d.
Proof. reflexivity. Qed.

Lemma string_of_uint_digits (d : Decimal.uint) :
  forallb is_digit (lit (NilEmpty.string_of_uint d)) = true.
Proof. induction d; cbn; done. Qed.

Lemma string_of_uint_nonempty (d : Decimal.uint) :
  d ≠ Decimal.Nil → lit (NilEmpty.string_of_uint d) ≠ [].
Proof. by destruct d. Qed.

Lemma nilzero_uint_digits (d : Decimal.uint) :
  lit (NilZero.string_of_uint d) ≠ []
  ∧ forallb is_digit (lit (NilZero.string_of_uint d)) = true.
Proof.
  destruct d; try done;
    (split; [by apply string_of_uint_nonempty|apply string_of_uint_digits]).
Qed.

Lemma str_of_int_numeral (z : Z) : is_numeral (str_of_int z).
Proof.
  unfold str_of_int, is_numeral.
  destruct (Z.to_int z) as [d|d]; cbn [NilZero.string_of_int];
    destruct (nilzero_uint_digits d) as [Hne Hd].
  - exists (lit (NilZero.string_of_uint d)). auto.
  - exists (lit (NilZero.string_of_uint d)). split; [done|]. split; [done|].
    by right.
Qed.

Lemma format_int_cases (i : Z) :
  ((decimal_digits i ≤ int_max_str_digits)%nat
   ∧ format_int i = Returns (str_of_int i))
  ∨ ((int_max_str_digits < decimal_digits i)%nat
     ∧ format_int i = Raises ValueError).
Proof.
  unfold format_int.
  destruct (Nat.leb_spec (decimal_digits i) int_max_str_digits);
    [left|right]; done.
Qed.

(** All three integers are within the digit limit. *)
Lemma compute_hash_within (alpha beta gamma : Z) (n : str) :
  (decimal_digits alpha ≤ int_max_str_digits)%nat →
  (decimal_digits beta ≤ int_max_str_digits)%nat →
  (decimal_digits gamma ≤ int_max_str_digits)%nat →
  compute_hash alpha beta gamma n =
    (bs ← str_encode (hash_input alpha beta gamma n);
     mret (sha256_hexdigest bs)).
Proof.
  intros Ha Hb Hc. unfold compute_hash, hash_input.
  destruct (format_int_cases alpha) as [[_ ->]|[? _]]; [|lia].
  destruct (format_int_cases beta) as [[_ ->]|[? _]]; [|lia].
  destruct (format_int_cases gamma) as [[_ ->]|[? _]]; [|lia].
  reflexivity.
Qed.

(** One of the three integers is over the digit limit. *)
Lemma compute_hash_over (alpha beta gamma : Z) (n : str) :
  ¬ ((decimal_digits alpha ≤ int_max_str_digits)%nat
     ∧ (decimal_digits beta ≤ int_max_str_digits)%nat
     ∧ (decimal_digits gamma ≤ int_max_str_digits)%nat) →
  compute_hash alpha beta gamma n = Raises ValueError.
Proof.
  intros Hover. unfold compute_hash.
  destruct (format_int_cases alpha) as [[Ha ->]|[_ ->]]; [|done].
  destruct (format_int_cases beta) as [[Hb ->]|[_ ->]]; [|done].
  destruct (format_int_cases gamma) as [[Hc ->]|[_ ->]]; [|done].
  by destruct Hover.
Qed.

(** What [compute_hash] returns is the digest of the string it built. *)
Lemma compute_hash_returns (alpha beta gamma : Z) (n h : str) :
  compute_hash alpha beta gamma n = Returns h →
  ∃ bs, encode (hash_input alpha beta gamma n) = Some bs
      ∧ h = sha256_hexdigest bs.
Proof.
  unfold compute_hash, hash_input.
  destruct (format_int_cases alpha) as [[_ ->]|[_ ->]]; [|done].
  destruct (format_int_cases beta) as [[_ ->]|[_ ->]]; [|done].
  destruct (format_int_cases gamma) as [[_ ->]|[_ ->]]; [|done].
  cbn [mbind outcome_bind]. unfold str_encode.
  destruct (encode _) as [bs|]; [|done].
  intros [= <-]. by exists bs.
Qed.

(** ** The hash helper *)

(** C1, the claim as stated, fails: CPython does not convert an integer
    of more than 4300 decimal digits to a string, so for such an integer
    the f-string of [compute_hash] raises [ValueError], although the string
    of the claim and its digest exist. Here alpha is 10 to the power 4300,
    a numeral of 4301 digits. *)
Lemma compute_hash_digit_limit :
  let big := (10 ^ 4300)%Z in
  decimal_digits big = 4301%nat
  ∧ compute_hash big 0 0 (lit "x") = Raises ValueError
  ∧ is_Some (sha256_hex (join (lit "-")
               [str_of_int big; str_of_int 0; str_of_int 0; lit "x"])).
Proof.
  split; [vm_compute; reflexivity|].
  split; [vm_compute; reflexivity|].
  eexists. vm_compute. reflexivity.
Qed.

(** C1, amended. For integers [alpha], [beta], [gamma] of at most 4300
    decimal digits each and every nonce string that has a UTF-8 encoding,
    [compute_hash] returns the hex-encoded SHA-256 digest, 64 hexadecimal
    digits, of the decimal numerals of the three integers and the nonce
    joined by hyphens; within the digit limit and for a nonce without a
    UTF-8 encoding (a lone surrogate) it raises [UnicodeEncodeError], and
    with an integer of more than 4300 digits it raises [ValueError]. The
    numerals are those of the integers: digits after an optional minus
    sign, which read back as the integer. The result depends on the four
    arguments alone. *)
Theorem compute_hash_sha256 (alpha beta gamma : Z) (n : str) :
  let s := join (lit "-")
             [str_of_int alpha; str_of_int beta; str_of_int gamma; n] in
  let within :=
    (decimal_digits alpha ≤ int_max_str_digits)%nat
    ∧ (decimal_digits beta ≤ int_max_str_digits)%nat
    ∧ (decimal_digits gamma ≤ int_max_str_digits)%nat in
  Forall (λ i, is_numeral (str_of_int i)
               ∧ ∃ t, str_of_int i = lit t
                    ∧ Z.of_int <$> NilZero.int_of_string t = Some i)
         [alpha; beta; gamma]
  ∧ (within → is_Some (encode n) →
     ∃ h, compute_hash alpha beta gamma n = Returns h
        ∧ sha256_hex s = Some h
        ∧ length h = 64%nat ∧ forallb is_hexdigit h = true)
  ∧ (within → encode n = None →
     compute_hash alpha beta gamma n = Raises UnicodeEncodeError
     ∧ sha256_hex s = None)
  ∧ (¬ within → compute_hash alpha beta gamma n = Raises ValueError)
  ∧ (∀ r1 r2, compute_hash alpha beta gamma n = r1 →
              compute_hash alpha beta gamma n = r2 → r1 = r2).
Proof.
  intros s within. subst s within.
  split; [|split; [|split; [|split]]].
  - repeat constructor; try apply str_of_int_numeral;
      apply str_of_int_reads_back.
  - intros (Ha & Hb & Hc) [bn Hn].
    rewrite (compute_hash_within _ _ _ _ Ha Hb Hc), join_hyphen.
    unfold hash_input, sha256_hex, str_encode.
    destruct (str_of_int_encodable alpha) as [ba Hea].
    destruct (str_of_int_encodable beta) as [bb Heb].
    destruct (str_of_int_encodable gamma) as [bc Hec].
    rewrite !encode_app, Hea, Heb, Hec, Hn.
    change (encode (lit "-")) with (Some [byte_of_N 45]).
    cbn [fmap option_fmap option_map mbind outcome_bind].
    eexists. split; [reflexivity|]. split; [reflexivity|].
    apply sha256_hexdigest_shape.
  - intros (Ha & Hb & Hc) Hn.
    rewrite (compute_hash_within _ _ _ _ Ha Hb Hc), join_hyphen.
    unfold hash_input, sha256_hex, str_encode.
    rewrite !encode_app, Hn.
    by destruct (encode (str_of_int alpha)), (encode (lit "-")),
      (encode (str_of_int beta)), (encode (str_of_int gamma)).
  - apply compute_hash_over.
  - congruence.
Qed.

Lemma compute_hash_sha256_witness :
  ((decimal_digits 7 ≤ int_max_str_digits)%nat
   ∧ (decimal_digits 13 ≤ int_max_str_digits)%nat
   ∧ (decimal_digits 21 ≤ int_max_str_digits)%nat)
  ∧ is_Some (encode (lit "abc123"))
  ∧ ∃ h, compute_hash 7 13 21 (lit "abc123") = Returns h
       ∧ sha256_hex (join (lit "-")
           [str_of_int 7; str_of_int 13; str_of_int 21; lit "abc123"])
         = Some h
       ∧ length h = 64%nat ∧ forallb is_hexdigit h = true.
Proof.
  assert (Hw : (decimal_digits 7 ≤ int_max_str_digits)%nat
               ∧ (decimal_digits 13 ≤ int_max_str_digits)%nat
               ∧ (decimal_digits 21 ≤ int_max_str_digits)%nat)
    by (vm_compute; repeat split; lia).
  assert (H : is_Some (encode (lit "abc123"))) by (by eexists).
  split; [exact Hw|]. split; [exact H|].
  exact (proj1 (proj2 (compute_hash_sha256 7 13 21 (lit "abc123"))) Hw H).
Defined.

(** C2. The digest the server expects in [challenge_key_hash] for a nonce
    is the helper's [compute_hash] at the secrets 7, 13 and 21 and that
    nonce, for every nonce string (both raise on a nonce without a UTF-8
    encoding); and the handler accepts or refuses a submission by comparing
    the supplied hash with that value. *)
Theorem expected_hash_compute_hash (n : str) :
  expected_hash n = compute_hash 7 13 21 n
  ∧ ∀ ip h entropy st,
      challenge_key_hash ip {| nonce := n; hash := h |} entropy st =
      if decide (NONCES st !! ip ≠ Some n) then (Raises InvalidNonce, st)
      else
        match compute_hash 7 13 21 n with
        | Raises e => (Raises e, st)
        | Returns h' =>
            if decide (h ≠ h') then (Raises IncorrectHash, st)
            else
              (Returns [(lit "status", lit "OK");
                        (lit "next", lit "/challenge/prize");
                        (lit "key_hint", lit "Use query param ?key=...");
                        (lit "key", token_urlsafe 16 entropy)],
               State (NONCES st) (<[ip := token_urlsafe 16 entropy]> (KEYS st)))
        end.
Proof.
  assert (Heq : expected_hash n = compute_hash 7 13 21 n) by reflexivity.
  split; [exact Heq|]. intros ip h entropy st.
  rewrite challenge_key_hash_unfold. cbn [nonce hash]. by rewrite Heq.
Qed.

(** ** The sum step *)

(** C4. [challenge_submit] succeeds exactly when the submitted result is
    the sum of the three secrets, 7 + 13 + 21 = 41; any other integer is
    refused with IncorrectResult, an HTTP 400. Submitting 41 succeeds and
    submitting 40 fails. *)
Theorem challenge_submit_iff (data : ChallengeSubmission) (st : state) :
  (getitem SECRET_NUMBERS (lit "alpha") = Returns 7%Z
   ∧ getitem SECRET_NUMBERS (lit "beta") = Returns 13%Z
   ∧ getitem SECRET_NUMBERS (lit "gamma") = Returns 21%Z)
  ∧ (succeeds (challenge_submit data st) ↔ result data = (7 + 13 + 21)%Z)
  ∧ (¬ succeeds (challenge_submit data st) ↔
       fails_with (challenge_submit data st) IncorrectResult)
  ∧ IncorrectResult = HTTPException 400 (lit "Incorrect result. Try again.")
  ∧ succeeds (challenge_submit {| result := 41 |} st)
  ∧ fails_with (challenge_submit {| result := 40 |} st) IncorrectResult.
Proof.
  split; [done|]. unfold succeeds, fails_with.
  destruct (challenge_submit_cases data st) as [[Hv (p & -> & _)]|[Hv ->]];
    cbn [fst]; (split; [|split; [|split; [done|split]]]).
  - split; [done|]. by exists p.
  - split; [intros H; destruct H; by exists p|done].
  - by eexists.
  - reflexivity.
  - split; [by intros [? ?]|]. intros H. by destruct Hv.
  - split; [done|]. by intros _ [? ?].
  - by eexists.
  - reflexivity.
Qed.

Lemma challenge_submit_iff_witness :
  succeeds (challenge_submit {| result := 41 |} initial).
Proof.
  apply (proj1 (proj2 (challenge_submit_iff {| result := 41 |} initial))).
  reflexivity.
Defined.

(** ** The hash step *)

Lemma InvalidNonce_neq_IncorrectHash : InvalidNonce ≠ IncorrectHash.
Proof. intros H. vm_compute in H. discriminate H. Qed.

Lemma succeeds_not_fails {A : Type} (r : outcome A * state) (e : exn) :
  succeeds r → ¬ fails_with r e.
Proof. intros [a Ha] He. unfold fails_with in He. congruence. Qed.





(** ** Histories *)

(** A client's key entry is written only by an accepted hash submission of
    that client. *)
Lemma run_keys_absent (ip : str) (rs : list request) (st : state) :
  hash_accepted ip rs st = false → KEYS st !! ip = None →
  KEYS (run rs st) !! ip = None.
Proof.
  revert st. induction rs as [|r rs IH]; intros st Hacc Hst; [done|].
  cbn [hash_accepted] in Hacc. apply orb_false_elim in Hacc as [Hr Hrs].
  cbn [run]. apply IH; [done|].
  destruct (handle_state r st)
    as [->|[(ip' & e & _ & ->)|(ip' & d & e & -> & [p Hp] & Hst')]];
    try done.
  rewrite Hst'. cbn [KEYS]. rewrite Hp in Hr.
  apply bool_decide_eq_false in Hr. by rewrite lookup_insert_ne.
Qed.

(** Without an accepted hash submission of the client, its key entry
    stays as it is. *)
Lemma run_keys_kept (ip : str) (rs : list request) (st : state) :
  hash_accepted ip rs st = false → KEYS (run rs st) !! ip = KEYS st !! ip.
Proof.
  revert st. induction rs as [|r rs IH]; intros st Hacc; [done|].
  cbn [hash_accepted] in Hacc. apply orb_false_elim in Hacc as [Hr Hrs].
  cbn [run]. rewrite (IH _ Hrs).
  destruct (handle_state r st)
    as [->|[(ip' & e & _ & ->)|(ip' & d & e & -> & [p Hp] & Hst')]];
    try done.
  rewrite Hst'. cbn [KEYS]. rewrite Hp in Hr.
  apply bool_decide_eq_false in Hr. by rewrite lookup_insert_ne.
Qed.

(** A client's nonce entry is written only by the nonce-issuing step of
    that client. *)
Lemma run_nonces_absent (ip : str) (rs : list request) (st : state) :
  existsb (is_key_start_of ip) rs = false → NONCES st !! ip = None →
  NONCES (run rs st) !! ip = None.
Proof.
  revert st. induction rs as [|r rs IH]; intros st Hrs Hst; [done|].
  cbn [existsb] in Hrs. apply orb_false_elim in Hrs as [Hr Hrs].
  cbn [run]. apply IH; [done|].
  destruct (handle_state r st)
    as [->|[(ip' & e & -> & ->)|(ip' & d & e & _ & _ & ->)]]; try done.
  cbn [NONCES]. cbn [is_key_start_of] in Hr.
  apply bool_decide_eq_false in Hr. by rewrite lookup_insert_ne.
Qed.

(** ** The prize step *)

(** C5. For every client and every supplied key, [challenge_prize] fails
    with InvalidKey, an HTTP 403, exactly when the key is absent, empty or
    not the key stored for that client; otherwise it returns the reward
    payload and changes nothing. Hence it fails for an empty key, for a key
    stored for another client that is not this client's own, and, in the
    state after any history in which no hash submission of the client was
    accepted, for every key. *)
Theorem challenge_prize_outcomes (st : state) (ip : str) (key : option str) :
  let r := challenge_prize ip key st in
  (fails_with r InvalidKey ↔
     key = None ∨ key = Some [] ∨ KEYS st !! ip ≠ key)
  ∧ InvalidKey = HTTPException 403 (lit "Valid key required")
  ∧ (¬ fails_with r InvalidKey →
     ∃ p, r = (Returns p, st)
        ∧ payload_get (lit "prize") p = Some (lit "API Master Badge")
        ∧ payload_get (lit "reward") p = Some (lit "Certificate"))
  ∧ fails_with (challenge_prize ip (Some []) st) InvalidKey
  ∧ (∀ ip' k, KEYS st !! ip' = Some k → KEYS st !! ip ≠ Some k →
       fails_with (challenge_prize ip (Some k) st) InvalidKey)
  ∧ (∀ rs, st = run rs initial → hash_accepted ip rs initial = false →
       fails_with r InvalidKey).
Proof.
  intros r.
  assert (Hiff : ∀ key',
    fails_with (challenge_prize ip key' st) InvalidKey ↔
      key' = None ∨ key' = Some [] ∨ KEYS st !! ip ≠ key').
  { intros key'. unfold fails_with.
    destruct (challenge_prize_cases ip key' st)
      as [[Hk ->]|(H1 & H2 & H3 & p & -> & _)]; cbn [fst]; split; try done.
    intros [?|[?|?]]; done. }
  split; [apply Hiff|]. split; [done|]. split; [|split; [|split]].
  - intros Hok. unfold fails_with in Hok. subst r.
    destruct (challenge_prize_cases ip key st)
      as [[_ Hr]|(_ & _ & _ & p & Hr & Hp)].
    + rewrite Hr in Hok. by destruct Hok.
    + by exists p.
  - apply Hiff. auto.
  - intros ip' k _ Hne. apply Hiff. auto.
  - intros rs -> Hacc. apply Hiff.
    rewrite run_keys_absent by done.
    destruct key; auto.
Qed.

Lemma challenge_prize_outcomes_witness :
  hash_accepted Sample.alice [KeyStart Sample.alice Sample.entropy1] initial
    = false
  ∧ fails_with (challenge_prize Sample.alice (Some Sample.key2) Sample.started)
               InvalidKey.
Proof.
  split; [reflexivity|].
  apply (proj2 (proj2 (proj2 (proj2 (proj2
           (challenge_prize_outcomes Sample.started Sample.alice
              (Some Sample.key2)))))) [KeyStart Sample.alice Sample.entropy1]);
    reflexivity.
Defined.

(** ** Nonce issuance *)

(** C6, the claim as stated, fails: an accepted sum submission stores no
    nonce for any client and its payload carries none. From the initial
    state, submitting 41 succeeds and leaves [NONCES] empty. *)
Lemma challenge_submit_issues_no_nonce :
  let data := {| result := 41 |} in
  result data = (7 + 13 + 21)%Z
  ∧ ∃ p, challenge_submit data initial = (Returns p, initial)
       ∧ payload_get (lit "nonce") p = None
       ∧ NONCES (challenge_submit data initial).2 !! Sample.alice = None.
Proof.
  split; [reflexivity|].
  eexists. split; [reflexivity|]. split; reflexivity.
Qed.

(** C6, amended. A sum submission equal to alpha + beta + gamma succeeds,
    changes neither dictionary and answers with a payload that carries no
    nonce and names [/challenge/key/start] as the next step. The nonce is
    issued by [challenge_key_start], for any client that calls it: it stores
    [token_hex(16)] of the request's entropy under the client's address,
    replacing an earlier nonce, and returns it in its payload; the nonce is
    the lower-case hexadecimal form of 16 bytes, 32 digits, and different
    bytes give different nonces. *)
Theorem nonce_issued_by_key_start (ip : str) (data : ChallengeSubmission)
    (entropy : list byte) (st : state) :
  (result data = (7 + 13 + 21)%Z →
   ∃ p, challenge_submit data st = (Returns p, st)
      ∧ payload_get (lit "next") p = Some (lit "/challenge/key/start")
      ∧ payload_get (lit "nonce") p = None)
  ∧ (∃ p, challenge_key_start ip entropy st =
            (Returns p,
             State (<[ip := token_hex 16 entropy]> (NONCES st)) (KEYS st))
        ∧ payload_get (lit "nonce") p = Some (token_hex 16 entropy))
  ∧ ((16 ≤ length entropy)%nat →
     token_hex 16 entropy = hexlify (take 16 entropy)
     ∧ length (take 16 entropy) = 16%nat
     ∧ length (token_hex 16 entropy) = 32%nat
     ∧ forallb is_hexdigit (token_hex 16 entropy) = true)
  ∧ (∀ entropy', token_hex 16 entropy = token_hex 16 entropy' →
       take 16 entropy = take 16 entropy').
Proof.
  split; [|split; [|split]].
  - intros Hv.
    destruct (challenge_submit_cases data st)
      as [[_ (p & Hr & _ & Hnext & Hnonce)]|[Hne _]]; [|done].
    by exists p.
  - destruct (challenge_key_start_eq ip entropy st) as (p & Hr & Hn & _).
    by exists p.
  - intros Hlen. split; [done|]. split; [rewrite length_take; lia|].
    by apply token_hex_16.
  - intros entropy'. apply hexlify_inj.
Qed.

Lemma nonce_issued_by_key_start_witness :
  (16 ≤ length Sample.entropy1)%nat
  ∧ length (token_hex 16 Sample.entropy1) = 32%nat.
Proof.
  assert (H : (16 ≤ length Sample.entropy1)%nat) by (vm_compute; lia).
  split; [exact H|].
  exact (proj1 (proj2 (proj2 (proj1 (proj2 (proj2
           (nonce_issued_by_key_start Sample.alice {| result := 41 |}
              Sample.entropy1 initial))) H)))).
Defined.

(** C7, the claim as stated, fails: the nonce check does not depend on a
    sum submission. Alice never submits a sum; she asks
    [/challenge/key/start] for a nonce and her hash submission passes the
    nonce check, and here the whole step. *)
Lemma key_hash_without_submit_sum :
  let rs := [KeyStart Sample.alice Sample.entropy1] in
  let data := {| nonce := Sample.nonce1; hash := Sample.hash1 |} in
  existsb (is_submit_sum_of Sample.alice) rs = false
  ∧ succeeds (challenge_key_hash Sample.alice data Sample.entropy2
                (run rs initial))
  ∧ ¬ fails_with (challenge_key_hash Sample.alice data Sample.entropy2
                    (run rs initial)) InvalidNonce.
Proof.
  assert (H : succeeds (challenge_key_hash Sample.alice
                {| nonce := Sample.nonce1; hash := Sample.hash1 |}
                Sample.entropy2
                (run [KeyStart Sample.alice Sample.entropy1] initial))).
  { eexists. vm_compute. reflexivity. }
  split; [reflexivity|]. split; [exact H|].
  by apply succeeds_not_fails.
Qed.

(** C7, amended. [challenge_key_hash] fails with InvalidNonce, whatever
    nonce and hash are supplied and without touching the dictionaries, for a
    client for which the nonce-issuing step [challenge_key_start] has not
    run before; sum submissions play no part in the nonce check. *)
Theorem key_hash_before_key_start (rs : list request) (ip : str)
    (data : HashSubmission) (entropy : list byte) :
  existsb (is_key_start_of ip) rs = false →
  challenge_key_hash ip data entropy (run rs initial) =
    (Raises InvalidNonce, run rs initial).
Proof.
  intros Hrs.
  pose proof (run_nonces_absent ip rs initial Hrs (lookup_empty _)) as Hn.
  destruct (challenge_key_hash_cases ip data entropy (run rs initial))
    as [[_ Hr]|[Heq _]]; [done|congruence].
Qed.

Lemma key_hash_before_key_start_witness :
  let rs := [SubmitSum Sample.alice {| result := 41 |};
             KeyStart Sample.bob Sample.entropy1] in
  existsb (is_key_start_of Sample.alice) rs = false
  ∧ challenge_key_hash Sample.alice
      {| nonce := Sample.nonce1; hash := Sample.hash1 |} Sample.entropy2
      (run rs initial) = (Raises InvalidNonce, run rs initial).
Proof.
  split; [reflexivity|].
  apply (key_hash_before_key_start
           [SubmitSum Sample.alice {| result := 41 |};
            KeyStart Sample.bob Sample.entropy1]).
  reflexivity.
Defined.

(** ** Keys *)

(** C8, the claim as stated, fails: claiming the prize does not use the
    key up. After Alice's hash is accepted she claims the prize with her
    key, and a second claim with the same key succeeds as well. *)
Lemma prize_claimed_twice :
  let first := challenge_prize Sample.alice (Some Sample.key2) Sample.verified in
  let second := challenge_prize Sample.alice (Some Sample.key2) first.2 in
  succeeds first ∧ succeeds second ∧ ¬ fails_with second InvalidKey.
Proof.
  assert (H1 : succeeds (challenge_prize Sample.alice (Some Sample.key2)
                           Sample.verified)).
  { eexists. vm_compute. reflexivity. }
  assert (H2 : succeeds (challenge_prize Sample.alice (Some Sample.key2)
                 (challenge_prize Sample.alice (Some Sample.key2)
                    Sample.verified).2)).
  { eexists. vm_compute. reflexivity. }
  split; [exact H1|]. split; [exact H2|]. by apply succeeds_not_fails.
Qed.

(** C8, amended. The key issued by an accepted hash submission is not
    used up by [challenge_prize]: a successful claim leaves [NONCES] and
    [KEYS] as they were, so a second claim by the same client with the same
    key gives the same successful answer; the key keeps being accepted
    after any further requests, of this client or of others, among which no
    hash submission of the client is accepted; and an accepted hash
    submission of the client stores a new key in its place, after which the
    old key is refused with InvalidKey unless the new key is equal to
    it. *)
Theorem prize_key_reusable (st : state) (ip : str) (key : option str) :
  succeeds (challenge_prize ip key st) →
  (challenge_prize ip key st).2 = st
  ∧ challenge_prize ip key (challenge_prize ip key st).2 =
      challenge_prize ip key st
  ∧ succeeds (challenge_prize ip key (challenge_prize ip key st).2)
  ∧ (∀ rs, hash_accepted ip rs st = false →
       KEYS (run rs st) !! ip = KEYS st !! ip
       ∧ succeeds (challenge_prize ip key (run rs st))
       ∧ (challenge_prize ip key (run rs st)).1 =
           (challenge_prize ip key st).1)
  ∧ (∀ rs data entropy,
       hash_accepted ip rs st = false →
       succeeds (challenge_key_hash ip data entropy (run rs st)) →
       let st' := (challenge_key_hash ip data entropy (run rs st)).2 in
       KEYS st' !! ip = Some (token_urlsafe 16 entropy)
       ∧ (key ≠ Some (token_urlsafe 16 entropy) →
          fails_with (challenge_prize ip key st') InvalidKey)).
Proof.
  intros Hok.
  assert (Hst : (challenge_prize ip key st).2 = st).
  { by destruct (challenge_prize_cases ip key st)
      as [[_ ->]|(_ & _ & _ & p & -> & _)]. }
  assert (Hsame : ∀ st', KEYS st' !! ip = KEYS st !! ip →
            (challenge_prize ip key st').1 = (challenge_prize ip key st).1).
  { intros st' Hk. rewrite !challenge_prize_unfold, Hk.
    by destruct (not_ key || bool_decide (KEYS st !! ip ≠ key)). }
  rewrite Hst. split; [done|]. split; [done|]. split; [done|]. split.
  - intros rs Hrs. pose proof (run_keys_kept ip rs st Hrs) as Hk.
    split; [done|]. split; [|by apply Hsame].
    destruct Hok as [p Hp]. exists p. by rewrite (Hsame _ Hk).
  - intros rs data entropy Hrs [p Hp] st'.
    assert (Hk' : KEYS st' !! ip = Some (token_urlsafe 16 entropy)).
    { subst st'.
      destruct (challenge_key_hash_cases ip data entropy (run rs st))
        as [[_ Hr]|[_ H]]; [by rewrite Hr in Hp|].
      destruct (expected_hash (nonce data)) as [h|ex];
        [|by rewrite H in Hp].
      destruct H as [[_ Hr]|(_ & p0 & Hr & _)]; [by rewrite Hr in Hp|].
      rewrite Hr. cbn [snd KEYS]. apply lookup_insert_eq. }
    split; [done|]. intros Hne. unfold fails_with.
    destruct (challenge_prize_cases ip key st')
      as [[_ ->]|(_ & _ & Heq & _)]; [done|].
    rewrite Hk' in Heq. congruence.
Qed.

Lemma sample_verified_prize :
  succeeds (challenge_prize Sample.alice (Some Sample.key2) Sample.verified).
Proof. eexists. vm_compute. reflexivity. Qed.

Lemma prize_key_reusable_witness :
  let rs := [KeyStart Sample.alice Sample.entropy1;
             ClaimPrize Sample.bob (Some Sample.key2);
             SubmitHash Sample.alice
               {| nonce := Sample.nonce1; hash := lit "00" |}
               Sample.entropy2] in
  succeeds (challenge_prize Sample.alice (Some Sample.key2) Sample.verified)
  ∧ succeeds (challenge_prize Sample.alice (Some Sample.key2)
                (challenge_prize Sample.alice (Some Sample.key2)
                   Sample.verified).2)
  ∧ hash_accepted Sample.alice rs Sample.verified = false
  ∧ succeeds (challenge_prize Sample.alice (Some Sample.key2)
                (run rs Sample.verified)).
Proof.
  pose proof (prize_key_reusable Sample.verified Sample.alice
                (Some Sample.key2) sample_verified_prize)
    as (_ & _ & Hsecond & Hstays & _).
  assert (Hrs : hash_accepted Sample.alice
                  [KeyStart Sample.alice Sample.entropy1;
                   ClaimPrize Sample.bob (Some Sample.key2);
                   SubmitHash Sample.alice
                     {| nonce := Sample.nonce1; hash := lit "00" |}
                     Sample.entropy2] Sample.verified = false)
    by (vm_compute; reflexivity).
  split; [exact sample_verified_prize|]. split; [exact Hsecond|].
  split; [exact Hrs|]. exact (proj1 (proj2 (Hstays _ Hrs))).
Defined.

(** C9. Issuing a nonce leaves the key store alone: [challenge_key_start]
    stores the new nonce under the calling client's address, keeps every
    other client's nonce and every entry of [KEYS], so whoever could claim
    the prize before the call, the caller included, can claim it after the
    call with the same key and the same answer. *)
Theorem challenge_key_start_frame (st : state) (ip : str)
    (entropy : list byte) :
  let st' := (challenge_key_start ip entropy st).2 in
  KEYS st' = KEYS st
  ∧ NONCES st' !! ip = Some (token_hex 16 entropy)
  ∧ (∀ ip', ip' ≠ ip → NONCES st' !! ip' = NONCES st !! ip')
  ∧ (∀ ip' key, succeeds (challenge_prize ip' key st) →
       succeeds (challenge_prize ip' key st')
       ∧ (challenge_prize ip' key st').1 = (challenge_prize ip' key st).1)
  ∧ (∀ k, k ≠ [] → KEYS st !! ip = Some k →
       succeeds (challenge_prize ip (Some k) st')).
Proof.
  intros st'.
  assert (Hst' : st' = State (<[ip := token_hex 16 entropy]> (NONCES st))
                             (KEYS st)).
  { subst st'. by destruct (challenge_key_start_eq ip entropy st)
      as (p & -> & _). }
  assert (Hprize : ∀ ip' key,
    (challenge_prize ip' key st').1 = (challenge_prize ip' key st).1).
  { intros ip' key. rewrite !challenge_prize_unfold, Hst'. cbn [KEYS].
    by destruct (not_ key || bool_decide (KEYS st !! ip' ≠ key)). }
  rewrite Hst'. cbn [KEYS NONCES]. split; [done|].
  split; [apply lookup_insert_eq|].
  split; [intros ip' Hne; by apply lookup_insert_ne|].
  rewrite <- Hst'. split.
  - intros ip' key [p Hp]. split; [|apply Hprize].
    exists p. by rewrite Hprize.
  - intros k Hk Hstored. unfold succeeds. rewrite Hprize.
    destruct (challenge_prize_cases ip (Some k) st)
      as [[[?|[?|?]] _]|(_ & _ & _ & p & -> & _)]; try done; try congruence.
    by exists p.
Qed.

Lemma challenge_key_start_frame_witness :
  Sample.key2 ≠ []
  ∧ KEYS Sample.verified !! Sample.alice = Some Sample.key2
  ∧ succeeds (challenge_prize Sample.alice (Some Sample.key2)
                (challenge_key_start Sample.alice Sample.entropy2
                   Sample.verified).2).
Proof.
  assert (H1 : Sample.key2 ≠ []) by done.
  assert (H2 : KEYS Sample.verified !! Sample.alice = Some Sample.key2)
    by (vm_compute; reflexivity).
  split; [exact H1|]. split; [exact H2|].
  exact (proj2 (proj2 (proj2 (proj2
           (challenge_key_start_frame Sample.verified Sample.alice
              Sample.entropy2)))) Sample.key2 H1 H2).
Defined.

(** ** Failures *)

(** C10. A failing request writes nothing: whenever [challenge_submit],
    [challenge_key_hash] or [challenge_prize] raises, with IncorrectResult,
    InvalidNonce, IncorrectHash, InvalidKey or any other exception, both
    [NONCES] and [KEYS] are exactly as before the call. *)
Theorem failure_leaves_state (st : state) :
  (∀ data e, fails_with (challenge_submit data st) e →
     (challenge_submit data st).2 = st)
  ∧ (∀ ip data entropy e,
       fails_with (challenge_key_hash ip data entropy st) e →
       (challenge_key_hash ip data entropy st).2 = st)
  ∧ (∀ ip key e, fails_with (challenge_prize ip key st) e →
       (challenge_prize ip key st).2 = st).
Proof.
  assert (H : ∀ r e, fails_with (handle r st) e → (handle r st).2 = st).
  { intros r e He.
    destruct (handle_state r st)
      as [Hst|[(ip & en & -> & _)|(ip & d & en & _ & Hok & _)]]; [done| |].
    - unfold fails_with in He. cbn [handle] in *.
      by destruct (challenge_key_start_eq ip en st) as (p & -> & _).
    - by destruct (succeeds_not_fails _ e Hok). }
  split; [|split].
  - intros data e. apply (H (SubmitSum [] data)).
  - intros ip data entropy e. apply (H (SubmitHash ip data entropy)).
  - intros ip key e. apply (H (ClaimPrize ip key)).
Qed.

Lemma failure_leaves_state_witness :
  let data := {| nonce := Sample.nonce1; hash := lit "00" |} in
  fails_with (challenge_key_hash Sample.alice data Sample.entropy2
                Sample.started) IncorrectHash
  ∧ (challenge_key_hash Sample.alice data Sample.entropy2 Sample.started).2
    = Sample.started.
Proof.
  assert (H : fails_with (challenge_key_hash Sample.alice
                {| nonce := Sample.nonce1; hash := lit "00" |}
                Sample.entropy2 Sample.started) IncorrectHash)
    by (vm_compute; reflexivity).
  split; [exact H|].
  exact (proj1 (proj2 (failure_leaves_state Sample.started))
           Sample.alice {| nonce := Sample.nonce1; hash := lit "00" |}
           Sample.entropy2 IncorrectHash H).
Defined.

(** * Further properties of the code *)

(** ** Tokens and digests, continued *)

Lemma token_urlsafe_length (n : nat) (entropy : list byte) :
  length (token_urlsafe n entropy) =
  ((length (token_bytes n entropy) * 4 + 2) / 3)%nat.
Proof.
  unfold token_urlsafe.
  destruct (urlsafe_b64encode_shape (token_bytes n entropy))
    as (data & k & Heq & Hsafe & Hlen).
  by rewrite Heq, rstrip_data_pads.
Qed.

(** A key drawn from at least one byte is not the empty string. *)
Lemma token_urlsafe_nonempty (entropy : list byte) :
  entropy ≠ [] → token_urlsafe 16 entropy ≠ [].
Proof.
  intros Hne Hk. apply (f_equal length) in Hk.
  rewrite token_urlsafe_length in Hk. unfold token_bytes in Hk.
  destruct entropy as [|b entropy]; [done|].
  cbn [take length] in Hk.
  assert (2 ≤ (S (length (take 15 entropy)) * 4 + 2) / 3)%nat; [|simpl in *; lia].
  apply Nat.div_le_lower_bound; lia.
Qed.

Lemma expected_hash_is_compute_hash (n : str) :
  expected_hash n = compute_hash 7 13 21 n.
Proof. reflexivity. Qed.

(** The digest the server expects for a nonce of hexadecimal digits. *)
Lemma expected_hash_hex_nonce (n : str) :
  forallb is_hexdigit n = true →
  ∃ h, expected_hash n = Returns h
     ∧ length h = 64%nat ∧ forallb is_hexdigit h = true.
Proof.
  intros Hhex. rewrite expected_hash_sha256.
  destruct (encode_secrets_prefix n (hexdigits_encodable n Hhex)) as [bs Hbs].
  unfold sha256_hex. rewrite Hbs. cbn [fmap option_fmap option_map].
  eexists. split; [reflexivity|]. apply sha256_hexdigest_shape.
Qed.

(** Whatever digest the server expects has the shape of a SHA-256
    digest. *)
Lemma expected_hash_shape (n h : str) :
  expected_hash n = Returns h →
  length h = 64%nat ∧ forallb is_hexdigit h = true.
Proof.
  rewrite expected_hash_sha256. unfold sha256_hex.
  destruct (encode (lit "7-13-21-" ++ n)) as [bs|];
    cbn [fmap option_fmap option_map]; [|done].
  intros [= <-]. apply sha256_hexdigest_shape.
Qed.

(** The hash step on a matching submission. *)
Lemma challenge_key_hash_accepts (ip n h : str) (entropy : list byte)
    (st : state) :
  NONCES st !! ip = Some n → expected_hash n = Returns h →
  ∃ p, challenge_key_hash ip {| nonce := n; hash := h |} entropy st =
         (Returns p,
          State (NONCES st) (<[ip := token_urlsafe 16 entropy]> (KEYS st)))
     ∧ payload_get (lit "key") p = Some (token_urlsafe 16 entropy).
Proof.
  intros Hn Hh.
  destruct (challenge_key_hash_cases ip {| nonce := n; hash := h |} entropy st)
    as [[Hne _]|[_ H]]; [done|].
  cbn [nonce hash] in H. rewrite Hh in H.
  destruct H as [[Hne _]|(_ & p & Hr & Hk & _)]; [done|]. by exists p.
Qed.

(** The prize step on the stored, non-empty key. *)
Lemma challenge_prize_accepts (ip k : str) (st : state) :
  k ≠ [] → KEYS st !! ip = Some k →
  ∃ p, challenge_prize ip (Some k) st = (Returns p, st)
     ∧ payload_get (lit "prize") p = Some (lit "API Master Badge").
Proof.
  intros Hk Hst.
  destruct (challenge_prize_cases ip (Some k) st)
    as [[[?|[?|?]] _]|(_ & _ & _ & p & Hr & Hp & _)]; try done;
    try congruence.
  by exists p.
Qed.

(** ** The whole game *)

(** X1. The scavenger hunt can be won from any state, by any client: the
    three secret endpoints return numbers whose sum [challenge_submit]
    accepts; [challenge_key_start] then hands out a nonce; the helper's
    [compute_hash] of the three numbers and that nonce is accepted by
    [challenge_key_hash], which hands out a key; and [challenge_prize]
    accepts that key, provided the key was drawn from at least one byte of
    entropy. *)
Theorem scavenger_hunt_end_to_end (st : state) (ip : str)
    (e1 e2 : list byte) :
  e2 ≠ [] →
  ∃ a b c p1 p2 n h p3 k p4 st2 st3,
    challenge_alpha st = (Returns [(lit "value", a)], st)
    ∧ challenge_beta st = (Returns [(lit "value", b)], st)
    ∧ challenge_gamma st = (Returns [(lit "value", c)], st)
    ∧ challenge_submit {| result := a + b + c |} st = (Returns p1, st)
    ∧ payload_get (lit "next") p1 = Some (lit "/challenge/key/start")
    ∧ challenge_key_start ip e1 st = (Returns p2, st2)
    ∧ payload_get (lit "nonce") p2 = Some n
    ∧ compute_hash a b c n = Returns h
    ∧ challenge_key_hash ip {| nonce := n; hash := h |} e2 st2 =
        (Returns p3, st3)
    ∧ payload_get (lit "key") p3 = Some k
    ∧ challenge_prize ip (Some k) st3 = (Returns p4, st3)
    ∧ payload_get (lit "prize") p4 = Some (lit "API Master Badge").
Proof.
  intros He2.
  destruct (challenge_submit_cases {| result := 7 + 13 + 21 |} st)
    as [[_ (p1 & Hr1 & _ & Hnext & _)]|[Hne _]]; [|done].
  destruct (challenge_key_start_eq ip e1 st) as (p2 & Hr2 & Hn2 & _).
  set (n := token_hex 16 e1) in *.
  set (st2 := State (<[ip := n]> (NONCES st)) (KEYS st)) in *.
  destruct (expected_hash_hex_nonce n (hexlify_hexdigits _)) as (h & Hh & _).
  assert (Hst2 : NONCES st2 !! ip = Some n) by apply lookup_insert_eq.
  destruct (challenge_key_hash_accepts ip n h e2 st2 Hst2 Hh)
    as (p3 & Hr3 & Hk3).
  set (k := token_urlsafe 16 e2) in *.
  set (st3 := State (NONCES st2) (<[ip := k]> (KEYS st2))) in *.
  assert (Hst3 : KEYS st3 !! ip = Some k) by apply lookup_insert_eq.
  destruct (challenge_prize_accepts ip k st3 (token_urlsafe_nonempty e2 He2)
              Hst3) as (p4 & Hr4 & Hp4).
  exists 7%Z, 13%Z, 21%Z, p1, p2, n, h, p3, k, p4, st2, st3.
  repeat split; try done.
Qed.

Lemma scavenger_hunt_end_to_end_witness :
  Sample.entropy2 ≠ []
  ∧ ∃ h k p4 st3,
      compute_hash 7 13 21 (token_hex 16 Sample.entropy1) = Returns h
      ∧ challenge_prize Sample.alice (Some k) st3 = (Returns p4, st3).
Proof.
  assert (H : Sample.entropy2 ≠ []) by done.
  split; [exact H|].
  destruct (scavenger_hunt_end_to_end initial Sample.alice Sample.entropy1
              Sample.entropy2 H)
    as (a & b & c & p1 & p2 & n & h & p3 & k & p4 & st2 & st3 & Ha & Hb & Hc
        & _ & _ & H2 & Hn & Hh & _ & _ & H4 & _).
  injection Ha as <-. injection Hb as <-. injection Hc as <-.
  destruct (challenge_key_start_eq Sample.alice Sample.entropy1 initial)
    as (p2' & Hr2 & Hn2 & _).
  rewrite Hr2 in H2. injection H2 as <- <-. rewrite Hn2 in Hn.
  injection Hn as <-. by exists h, k, p4, st3.
Defined.

(** ** Nonces and keys over time *)

(** X2. Asking for a nonce again replaces the client's nonce: after two
    calls of [challenge_key_start] that drew different bytes, a hash
    submission that carries the first nonce is refused with InvalidNonce,
    whatever hash it carries, and nothing is stored. *)
Theorem nonce_rotation (st : state) (ip : str) (e1 e2 : list byte)
    (data : HashSubmission) (entropy : list byte) :
  take 16 e1 ≠ take 16 e2 →
  nonce data = token_hex 16 e1 →
  let st' := run [KeyStart ip e1; KeyStart ip e2] st in
  NONCES st' !! ip = Some (token_hex 16 e2)
  ∧ challenge_key_hash ip data entropy st' = (Raises InvalidNonce, st').
Proof.
  intros Hne Hdata st'.
  assert (Hst' : NONCES st' !! ip = Some (token_hex 16 e2)).
  { subst st'. cbn [run handle].
    destruct (challenge_key_start_eq ip e1 st) as (p1 & -> & _).
    cbn [snd].
    destruct (challenge_key_start_eq ip e2
                (State (<[ip := token_hex 16 e1]> (NONCES st)) (KEYS st)))
      as (p2 & -> & _).
    cbn [snd NONCES]. apply lookup_insert_eq. }
  split; [done|].
  destruct (challenge_key_hash_cases ip data entropy st')
    as [[_ Hr]|[Heq _]]; [done|].
  rewrite Hst', Hdata in Heq. injection Heq as Heq.
  by apply hexlify_inj in Heq.
Qed.

Lemma nonce_rotation_witness :
  let data := {| nonce := Sample.nonce1; hash := Sample.hash1 |} in
  let st' := run [KeyStart Sample.alice Sample.entropy1;
                  KeyStart Sample.alice Sample.entropy2] initial in
  take 16 Sample.entropy1 ≠ take 16 Sample.entropy2
  ∧ challenge_key_hash Sample.alice data Sample.entropy2 st' =
      (Raises InvalidNonce, st').
Proof.
  assert (H : take 16 Sample.entropy1 ≠ take 16 Sample.entropy2) by done.
  split; [exact H|].
  exact (proj2 (nonce_rotation initial Sample.alice Sample.entropy1
                  Sample.entropy2
                  {| nonce := Sample.nonce1; hash := Sample.hash1 |}
                  Sample.entropy2 H eq_refl)).
Defined.

(** X3. An accepted hash submission does not use the nonce up: it leaves
    [NONCES] as it was, so the same nonce and hash are accepted again; the
    second acceptance replaces the client's key, and the first key, if the
    second differs from it, is refused with InvalidKey from then on. *)
Theorem hash_submission_replay (st : state) (ip : str)
    (data : HashSubmission) (e e' : list byte) :
  succeeds (challenge_key_hash ip data e st) →
  let st1 := (challenge_key_hash ip data e st).2 in
  let st2 := (challenge_key_hash ip data e' st1).2 in
  NONCES st1 = NONCES st
  ∧ succeeds (challenge_key_hash ip data e' st1)
  ∧ KEYS st2 !! ip = Some (token_urlsafe 16 e')
  ∧ (token_urlsafe 16 e ≠ token_urlsafe 16 e' →
     fails_with (challenge_prize ip (Some (token_urlsafe 16 e)) st2)
                InvalidKey).
Proof.
  intros [p Hp] st1 st2.
  destruct (challenge_key_hash_cases ip data e st) as [[_ Hr]|[Hn H]];
    [by rewrite Hr in Hp|].
  destruct (expected_hash (nonce data)) as [h|ex] eqn:Hh;
    [|by rewrite H in Hp].
  destruct H as [[_ Hr]|(Hd & p0 & Hr & _)]; [by rewrite Hr in Hp|].
  assert (Hst1 : st1 = State (NONCES st) (<[ip := token_urlsafe 16 e]> (KEYS st)))
    by (subst st1; by rewrite Hr).
  assert (Hn1 : NONCES st1 !! ip = Some (nonce data)) by (by rewrite Hst1).
  destruct (challenge_key_hash_cases ip data e' st1) as [[Hne _]|[_ H1]];
    [done|].
  rewrite Hh in H1. destruct H1 as [[Hne _]|(_ & p1 & Hr1 & _)]; [done|].
  assert (Hst2 : KEYS st2 !! ip = Some (token_urlsafe 16 e')).
  { subst st2. rewrite Hr1. cbn [snd KEYS]. apply lookup_insert_eq. }
  split; [by rewrite Hst1|]. split; [exists p1; by rewrite Hr1|].
  split; [done|]. intros Hne. unfold fails_with.
  destruct (challenge_prize_cases ip (Some (token_urlsafe 16 e)) st2)
    as [[_ ->]|(_ & _ & Heq & _)]; [done|].
  rewrite Hst2 in Heq. congruence.
Qed.

Lemma hash_submission_replay_witness :
  let data := {| nonce := Sample.nonce1; hash := Sample.hash1 |} in
  succeeds (challenge_key_hash Sample.alice data Sample.entropy2 Sample.started)
  ∧ succeeds (challenge_key_hash Sample.alice data Sample.entropy1
                (challenge_key_hash Sample.alice data Sample.entropy2
                   Sample.started).2).
Proof.
  assert (H : succeeds (challenge_key_hash Sample.alice
                {| nonce := Sample.nonce1; hash := Sample.hash1 |}
                Sample.entropy2 Sample.started))
    by (eexists; vm_compute; reflexivity).
  split; [exact H|].
  exact (proj1 (proj2 (hash_submission_replay Sample.started Sample.alice
                  {| nonce := Sample.nonce1; hash := Sample.hash1 |}
                  Sample.entropy2 Sample.entropy1 H))).
Defined.

(** X8. The hash check is exact: a submission is accepted only if its
    nonce is the stored one and its hash is written as 64 lower-case
    hexadecimal digits; an upper-case, truncated or padded digest is
    refused. *)
Theorem accepted_hash_shape (st : state) (ip : str) (data : HashSubmission)
    (entropy : list byte) :
  succeeds (challenge_key_hash ip data entropy st) →
  NONCES st !! ip = Some (nonce data)
  ∧ length (hash data) = 64%nat
  ∧ forallb is_hexdigit (hash data) = true.
Proof.
  intros [p Hp].
  destruct (challenge_key_hash_cases ip data entropy st) as [[_ Hr]|[Hn H]];
    [by rewrite Hr in Hp|].
  split; [done|].
  destruct (expected_hash (nonce data)) as [h|ex] eqn:Hh;
    [|by rewrite H in Hp].
  destruct H as [[_ Hr]|(Hd & _)]; [by rewrite Hr in Hp|].
  rewrite Hd. by apply (expected_hash_shape (nonce data)).
Qed.

Lemma accepted_hash_shape_witness :
  length Sample.hash1 = 64%nat.
Proof.
  apply (accepted_hash_shape Sample.started Sample.alice
           {| nonce := Sample.nonce1; hash := Sample.hash1 |} Sample.entropy2).
  eexists. vm_compute. reflexivity.
Defined.

(** ** Clients do not interfere *)

(** A request writes entries of its own client only. *)
Lemma handle_other_client (r : request) (st : state) (ip : str) :
  client_of r ≠ ip →
  NONCES (handle r st).2 !! ip = NONCES st !! ip
  ∧ KEYS (handle r st).2 !! ip = KEYS st !! ip.
Proof.
  intros Hne.
  destruct (handle_state r st)
    as [->|[(ip' & e & -> & ->)|(ip' & d & e & -> & _ & ->)]]; [done| |];
    cbn [client_of] in Hne; cbn [NONCES KEYS];
    by rewrite lookup_insert_ne.
Qed.

(** The answer to a request depends on the entries of its own client
    only. *)
Lemma handle_own_entries (r : request) (st1 st2 : state) :
  NONCES st1 !! client_of r = NONCES st2 !! client_of r →
  KEYS st1 !! client_of r = KEYS st2 !! client_of r →
  (handle r st1).1 = (handle r st2).1.
Proof.
  intros Hn Hk.
  destruct r as [ip data|ip entropy|ip data entropy|ip key];
    cbn [handle client_of] in *.
  - unfold challenge_submit, raise, mret, M_ret. by case_decide.
  - reflexivity.
  - rewrite !challenge_key_hash_unfold, Hn.
    destruct (decide (NONCES st2 !! ip ≠ Some (nonce data))); [done|].
    destruct (expected_hash (nonce data)) as [h|e]; [|done].
    by destruct (decide (hash data ≠ h)).
  - rewrite !challenge_prize_unfold, Hk.
    by destruct (not_ key || bool_decide (KEYS st2 !! ip ≠ key)).
Qed.

Lemma run_other_clients (rs : list request) (st : state) (ip : str) :
  Forall (λ r, client_of r ≠ ip) rs →
  NONCES (run rs st) !! ip = NONCES st !! ip
  ∧ KEYS (run rs st) !! ip = KEYS st !! ip.
Proof.
  revert st. induction rs as [|r rs IH]; intros st Hrs; [done|].
  apply Forall_cons in Hrs as [Hr Hrs]. cbn [run].
  destruct (IH (handle r st).2 Hrs) as [-> ->].
  by apply handle_other_client.
Qed.

(** X4. Clients with different addresses do not interfere: whatever
    requests other clients make in between, a client's nonce and key
    entries stay as they were and its next request gets the same answer as
    it would have got without them. *)
Theorem clients_do_not_interfere (rs : list request) (r : request)
    (st : state) :
  Forall (λ r', client_of r' ≠ client_of r) rs →
  NONCES (run rs st) !! client_of r = NONCES st !! client_of r
  ∧ KEYS (run rs st) !! client_of r = KEYS st !! client_of r
  ∧ (handle r (run rs st)).1 = (handle r st).1.
Proof.
  intros Hrs.
  destruct (run_other_clients rs st (client_of r) Hrs) as [Hn Hk].
  split; [done|]. split; [done|]. by apply handle_own_entries.
Qed.

Lemma clients_do_not_interfere_witness :
  let rs := [KeyStart Sample.bob Sample.entropy2;
             ClaimPrize Sample.bob (Some Sample.key2)] in
  let r := ClaimPrize Sample.alice (Some Sample.key2) in
  Forall (λ r', client_of r' ≠ client_of r) rs
  ∧ (handle r (run rs Sample.verified)).1 = (handle r Sample.verified).1.
Proof.
  assert (H : Forall (λ r', client_of r' ≠
                             client_of (ClaimPrize Sample.alice
                                          (Some Sample.key2)))
                [KeyStart Sample.bob Sample.entropy2;
                 ClaimPrize Sample.bob (Some Sample.key2)])
    by (repeat constructor; done).
  split; [exact H|].
  exact (proj2 (proj2 (clients_do_not_interfere _
           (ClaimPrize Sample.alice (Some Sample.key2)) Sample.verified H))).
Defined.

(** ** What the dictionaries hold *)

Lemma handle_tokens_shaped (r : request) (st : state) :
  entropy_ok r → tokens_shaped st → tokens_shaped (handle r st).2.
Proof.
  intros Hr [Hn Hk].
  destruct (handle_state r st)
    as [->|[(ip & e & -> & ->)|(ip & d & e & -> & _ & ->)]]; [done| |];
    cbn [entropy_ok] in Hr; split; cbn [NONCES KEYS]; try done;
    intros ip' t; rewrite lookup_insert; case_decide.
  - intros [= <-]. by apply token_hex_16.
  - apply Hn.
  - intros [= <-]. by apply token_urlsafe_16.
  - apply Hk.
Qed.

Lemma run_tokens_shaped (rs : list request) (st : state) :
  Forall entropy_ok rs → tokens_shaped st → tokens_shaped (run rs st).
Proof.
  revert st. induction rs as [|r rs IH]; intros st Hrs Hst; [done|].
  apply Forall_cons in Hrs as [Hr Hrs]. cbn [run].
  by apply IH, handle_tokens_shaped.
Qed.

Lemma initial_tokens_shaped : tokens_shaped initial.
Proof. split; intros ip t; cbn; by rewrite lookup_empty. Qed.

(** X5. After any history of requests that each drew their 16 bytes,
    every stored nonce is 32 lower-case hexadecimal digits and every stored
    key is 22 characters of the URL-safe alphabet. *)
Theorem stored_tokens_shape (rs : list request) (ip t : str) :
  Forall entropy_ok rs →
  (NONCES (run rs initial) !! ip = Some t →
     length t = 32%nat ∧ forallb is_hexdigit t = true)
  ∧ (KEYS (run rs initial) !! ip = Some t →
       length t = 22%nat ∧ forallb is_urlsafe t = true).
Proof.
  intros Hrs.
  destruct (run_tokens_shaped rs initial Hrs initial_tokens_shaped)
    as [Hn Hk].
  split; [apply Hn|apply Hk].
Qed.

Lemma sample_history_entropy_ok :
  Forall entropy_ok
    [KeyStart Sample.alice Sample.entropy1;
     SubmitHash Sample.alice
       {| nonce := Sample.nonce1; hash := Sample.hash1 |} Sample.entropy2].
Proof. repeat constructor; vm_compute; lia. Qed.

Lemma stored_tokens_shape_witness :
  KEYS Sample.verified !! Sample.alice = Some Sample.key2
  ∧ length Sample.key2 = 22%nat ∧ forallb is_urlsafe Sample.key2 = true.
Proof.
  assert (H : KEYS Sample.verified !! Sample.alice = Some Sample.key2)
    by (vm_compute; reflexivity).
  split; [exact H|].
  exact (proj2 (stored_tokens_shape _ Sample.alice Sample.key2
                  sample_history_entropy_ok) H).
Defined.

Lemma handle_keys_have_nonces (r : request) (st : state) :
  keys_have_nonces st → keys_have_nonces (handle r st).2.
Proof.
  intros Hinv.
  destruct (handle_state r st) as [->|[(ip & e & -> & ->)|(ip & d & e & -> & Hok & Hst)]];
    [done| |].
  - intros ip'. cbn [NONCES KEYS]. rewrite lookup_insert.
    case_decide; [by eexists|apply Hinv].
  - rewrite Hst. intros ip'. cbn [NONCES KEYS]. rewrite lookup_insert.
    case_decide as Hip; [|apply Hinv]. subst ip'. intros _.
    cbn [handle] in Hok. destruct Hok as [p Hp].
    destruct (challenge_key_hash_cases ip d e st) as [[_ Hr]|[Hn _]];
      [by rewrite Hr in Hp|by eexists].
Qed.

(** X6. In every state the server can reach, a client that has a key
    also has a nonce: keys are only issued to clients that went through
    [challenge_key_start], and no request ever removes an entry. *)
Theorem key_implies_nonce (st : state) (ip k : str) :
  reachable st → KEYS st !! ip = Some k → ∃ n, NONCES st !! ip = Some n.
Proof.
  intros [rs <-] Hk.
  assert (Hinv : ∀ rs st, keys_have_nonces st → keys_have_nonces (run rs st)).
  { clear. induction rs as [|r rs IH]; intros st Hst; [done|].
    by apply IH, handle_keys_have_nonces. }
  apply (Hinv rs initial); [|by eexists].
  intros ip' [x Hx]. cbn in Hx. by rewrite lookup_empty in Hx.
Qed.

Lemma sample_verified_reachable : reachable Sample.verified.
Proof. by eexists. Qed.

Lemma key_implies_nonce_witness :
  reachable Sample.verified
  ∧ KEYS Sample.verified !! Sample.alice = Some Sample.key2
  ∧ ∃ n, NONCES Sample.verified !! Sample.alice = Some n.
Proof.
  assert (H : KEYS Sample.verified !! Sample.alice = Some Sample.key2)
    by (vm_compute; reflexivity).
  split; [exact sample_verified_reachable|]. split; [exact H|].
  exact (key_implies_nonce Sample.verified Sample.alice Sample.key2
           sample_verified_reachable H).
Defined.

(** X7. Every stored key works: after any history of requests that each
    drew their 16 bytes, a client that presents the key stored for it gets
    the prize, and the claim changes nothing. *)
Theorem stored_key_claims_prize (rs : list request) (ip k : str) :
  Forall entropy_ok rs →
  KEYS (run rs initial) !! ip = Some k →
  ∃ p, challenge_prize ip (Some k) (run rs initial) =
         (Returns p, run rs initial)
     ∧ payload_get (lit "prize") p = Some (lit "API Master Badge").
Proof.
  intros Hrs Hk.
  destruct (run_tokens_shaped rs initial Hrs initial_tokens_shaped)
    as [_ Hkeys].
  destruct (Hkeys ip k Hk) as [Hlen _].
  apply challenge_prize_accepts; [|done]. by intros ->.
Qed.

Lemma stored_key_claims_prize_witness :
  KEYS Sample.verified !! Sample.alice = Some Sample.key2
  ∧ ∃ p, challenge_prize Sample.alice (Some Sample.key2) Sample.verified =
           (Returns p, Sample.verified)
       ∧ payload_get (lit "prize") p = Some (lit "API Master Badge").
Proof.
  assert (H : KEYS Sample.verified !! Sample.alice = Some Sample.key2)
    by (vm_compute; reflexivity).
  split; [exact H|].
  exact (stored_key_claims_prize _ Sample.alice Sample.key2
           sample_history_entropy_ok H).
Defined.

(** ** The hashed string determines its parts *)

Lemma lit_inj (s s' : string) : lit s = lit s' → s = s'.
Proof.
  unfold lit. intros H.
  apply (f_equal (List.map ascii_of_N)) in H.
  rewrite !List.map_map in H.
  rewrite !(List.map_ext _ (λ a, a) ascii_N_embedding), !List.map_id in H.
  apply (f_equal string_of_list_ascii) in H.
  by rewrite !string_of_list_ascii_of_string in H.
Qed.

Lemma str_of_int_inj (z z' : Z) : str_of_int z = str_of_int z' → z = z'.
Proof.
  intros H.
  destruct (str_of_int_reads_back z) as (s & Hs & Hz).
  destruct (str_of_int_reads_back z') as (s' & Hs' & Hz').
  rewrite Hs, Hs' in H. apply lit_inj in H. subst s'. congruence.
Qed.

Lemma digits_sep_inj (ds ds' r r' : str) :
  forallb is_digit ds = true → forallb is_digit ds' = true →
  ds ++ 45 :: r = ds' ++ 45 :: r' → ds = ds' ∧ r = r'.
Proof.
  revert ds'. induction ds as [|d ds IH]; intros [|d' ds'] Hd Hd' H;
    cbn [app forallb] in *.
  - by injection H.
  - injection H as <- _. done.
  - injection H as -> _. done.
  - injection H as <- H.
    apply andb_prop in Hd as [_ Hd]. apply andb_prop in Hd' as [_ Hd'].
    destruct (IH ds' Hd Hd' H) as [-> ->]. done.
Qed.

Lemma numeral_sep_inj (s s' r r' : str) :
  is_numeral s → is_numeral s' →
  s ++ 45 :: r = s' ++ 45 :: r' → s = s' ∧ r = r'.
Proof.
  intros (ds & Hne & Hd & Hs) (ds' & Hne' & Hd' & Hs') H.
  destruct Hs as [->| ->], Hs' as [->| ->]; cbn [app] in H.
  - by apply digits_sep_inj.
  - destruct ds as [|d ds]; [done|]. injection H as -> _. done.
  - destruct ds' as [|d' ds']; [done|]. injection H as <- _. done.
  - injection H as H. destruct (digits_sep_inj ds ds' r r' Hd Hd' H) as [-> ->].
    done.
Qed.

(** X9. The string [compute_hash] hashes determines its four inputs: two
    calls hash the same string only if they were given the same three
    integers and the same nonce, also when the nonce contains hyphens or
    digits. Once its three integers have passed the digit limit, the digest
    of [compute_hash] is the digest of that string. *)
Theorem hash_input_injective (alpha beta gamma : Z) (n : str)
    (alpha' beta' gamma' : Z) (n' : str) :
  compute_hash alpha beta gamma n =
    (_ ← format_int alpha;
     _ ← format_int beta;
     _ ← format_int gamma;
     bs ← str_encode (hash_input alpha beta gamma n);
     mret (sha256_hexdigest bs))
  ∧ (hash_input alpha beta gamma n = hash_input alpha' beta' gamma' n' →
     alpha = alpha' ∧ beta = beta' ∧ gamma = gamma' ∧ n = n').
Proof.
  split.
  { unfold compute_hash, hash_input.
    destruct (format_int_cases alpha) as [[_ ->]|[_ ->]]; [|done].
    destruct (format_int_cases beta) as [[_ ->]|[_ ->]]; [|done].
    by destruct (format_int_cases gamma) as [[_ ->]|[_ ->]]. }
  unfold hash_input.
  change (lit "-") with [45]. cbn [app]. intros H.
  apply numeral_sep_inj in H as [Ha H]; [|apply str_of_int_numeral..].
  apply numeral_sep_inj in H as [Hb H]; [|apply str_of_int_numeral..].
  apply numeral_sep_inj in H as [Hc H]; [|apply str_of_int_numeral..].
  by rewrite (str_of_int_inj _ _ Ha), (str_of_int_inj _ _ Hb),
    (str_of_int_inj _ _ Hc).
Qed.

Lemma hash_input_injective_witness :
  hash_input 1 2 3 (lit "4-5") = hash_input 1 2 3 (lit "4-5")
  ∧ (1 = 1 ∧ 2 = 2 ∧ 3 = 3 ∧ lit "4-5" = lit "4-5")%Z.
Proof.
  split; [reflexivity|].
  exact (proj2 (hash_input_injective 1 2 3 (lit "4-5") 1 2 3 (lit "4-5"))
           eq_refl).
Defined.

(** ** The command-line helper *)

Lemma compute_hash_shape (alpha beta gamma : Z) (n h : str) :
  compute_hash alpha beta gamma n = Returns h →
  length h = 64%nat ∧ forallb is_hexdigit h = true.
Proof.
  intros (bs & _ & ->)%compute_hash_returns. apply sha256_hexdigest_shape.
Qed.

(** X10. The helper script, once its arguments are parsed. If
    [compute_hash] raises (a nonce without a UTF-8 encoding, an integer
    over the digit limit) or the first [print] raises, nothing reaches
    standard output; if the second [print] raises (a standard output that
    cannot encode the nonce), the digest line alone is out; in each of
    these cases one line "error: ..." goes to standard error and the exit
    status is 1. Otherwise the script prints the digest, 64 hexadecimal
    digits, and the summary that quotes the nonce and that digest, writes
    nothing to standard error and ends with status 0. Run with the secrets
    7, 13, 21 and the nonce the server stores for a client, whatever it
    prints first is a hash [challenge_key_hash] accepts from that
    client. *)
Theorem cli_script_outcomes (print_stdout : list str → str → outcome unit)
    (exn_str : exn → str) (args : CLI.Namespace) :
  let p := CLI.script print_stdout exn_str args in
  let error e := [lit "error: " ++ exn_str e] in
  match compute_hash (CLI.alpha args) (CLI.beta args) (CLI.gamma args)
          (CLI.nonce args) with
  | Raises e =>
      CLI.stdout p = [] ∧ CLI.stderr p = error e ∧ CLI.status p = 1%Z
  | Returns h =>
      length h = 64%nat ∧ forallb is_hexdigit h = true
      ∧ match print_stdout [] h with
        | Raises e =>
            CLI.stdout p = [] ∧ CLI.stderr p = error e ∧ CLI.status p = 1%Z
        | Returns _ =>
            match print_stdout [h] (CLI.summary (CLI.nonce args) h) with
            | Raises e =>
                CLI.stdout p = [h] ∧ CLI.stderr p = error e
                ∧ CLI.status p = 1%Z
            | Returns _ =>
                CLI.stdout p = [h; CLI.summary (CLI.nonce args) h]
                ∧ CLI.stderr p = [] ∧ CLI.status p = 0%Z
            end
        end
  end
  ∧ (∀ st ip entropy h rest,
       CLI.alpha args = 7%Z → CLI.beta args = 13%Z → CLI.gamma args = 21%Z →
       NONCES st !! ip = Some (CLI.nonce args) →
       CLI.stdout p = h :: rest →
       succeeds (challenge_key_hash ip
                   {| nonce := CLI.nonce args; hash := h |} entropy st)).
Proof.
  intros p error. subst p error. unfold CLI.script, CLI.main, CLI.print.
  destruct (compute_hash (CLI.alpha args) (CLI.beta args) (CLI.gamma args)
              (CLI.nonce args)) as [h|e] eqn:Hh.
  2: { split; [done|]. by intros st ip entropy h rest. }
  destruct (compute_hash_shape _ _ _ _ _ Hh) as [Hlen Hhex].
  assert (Hfirst : ∀ st ip entropy,
    CLI.alpha args = 7%Z → CLI.beta args = 13%Z → CLI.gamma args = 21%Z →
    NONCES st !! ip = Some (CLI.nonce args) →
    succeeds (challenge_key_hash ip
                {| nonce := CLI.nonce args; hash := h |} entropy st)).
  { intros st ip entropy Ha Hb Hg Hst. rewrite Ha, Hb, Hg in Hh.
    destruct (challenge_key_hash_accepts ip _ h entropy st Hst Hh)
      as (pl & Hr & _).
    exists pl. by rewrite Hr. }
  destruct (print_stdout [] h) as [[]|e1]; cbn [app].
  - destruct (print_stdout [h] (CLI.summary (CLI.nonce args) h)) as [[]|e2];
      cbn [app CLI.stdout CLI.stderr CLI.status];
      (split; [done|]); intros st ip entropy h' rest Ha Hb Hg Hst [= <- _];
      by apply Hfirst.
  - cbn [CLI.stdout CLI.stderr CLI.status]. split; [done|].
    by intros st ip entropy h' rest.
Qed.

Lemma cli_script_outcomes_witness :
  let args := {| CLI.alpha := 7; CLI.beta := 13; CLI.gamma := 21;
                 CLI.nonce := Sample.nonce1 |} in
  let p := CLI.script (λ _ _, Returns tt) (λ _, lit "failed") args in
  NONCES Sample.started !! Sample.alice = Some (CLI.nonce args)
  ∧ CLI.stdout p = [Sample.hash1; CLI.summary Sample.nonce1 Sample.hash1]
  ∧ succeeds (challenge_key_hash Sample.alice
                {| nonce := CLI.nonce args; hash := Sample.hash1 |}
                Sample.entropy2 Sample.started).
Proof.
  assert (H1 : NONCES Sample.started !! Sample.alice = Some Sample.nonce1)
    by (vm_compute; reflexivity).
  assert (H2 : CLI.stdout
                 (CLI.script (λ _ _, Returns tt) (λ _, lit "failed")
                    {| CLI.alpha := 7; CLI.beta := 13; CLI.gamma := 21;
                       CLI.nonce := Sample.nonce1 |})
               = [Sample.hash1; CLI.summary Sample.nonce1 Sample.hash1])
    by (vm_compute; reflexivity).
  split; [exact H1|]. split; [exact H2|].
  exact (proj2 (cli_script_outcomes (λ _ _, Returns tt) (λ _, lit "failed")
           {| CLI.alpha := 7; CLI.beta := 13; CLI.gamma := 21;
              CLI.nonce := Sample.nonce1 |})
           Sample.started Sample.alice Sample.entropy2 Sample.hash1
           [CLI.summary Sample.nonce1 Sample.hash1]
           eq_refl eq_refl eq_refl H1 H2).
Defined.

(** ** Accounts and lessons *)

Lemma users_get_fake_users_db (DU DP : option str) (k : Lessons.jval) :
  Lessons.users_get k (Lessons.fake_users_db DU DP) =
  match k with
  | Lessons.JStr s =>
      if decide (DU = Some s)
      then Some {| Lessons.username := DU; Lessons.hashed_password := DP |}
      else None
  | Lessons.JInt _ => None
  end.
Proof.
  unfold Lessons.fake_users_db. cbn [Lessons.users_get].
  destruct k as [s|z], DU as [s'|]; try done.
  destruct (decide (s' = s)) as [->|Hne].
  - by rewrite decide_True.
  - rewrite decide_False; [done|congruence].
Qed.



(** X12. [get_current_user] returns the configured user exactly when the
    token decodes and its subject is the configured user name; a token that
    does not decode, has no subject or names anyone else gets one and the
    same 401 error with the [WWW-Authenticate: Bearer] header. *)
Theorem get_current_user_outcomes (DU DP : option str)
    (jwt_decode : str → option (list (str * Lessons.jval))) (token : str) :
  let r := Lessons.get_current_user DU DP jwt_decode token in
  (∀ user,
     r = Lessons.Ok user ↔
       (∃ payload name,
          jwt_decode token = Some payload
          ∧ Lessons.dict_get (lit "sub") payload = Some (Lessons.JStr name)
          ∧ DU = Some name)
       ∧ user = {| Lessons.username := DU; Lessons.hashed_password := DP |})
  ∧ ((∃ user, r = Lessons.Ok user)
     ∨ r = Lessons.Err (Lessons.HTTPError 401
                          (lit "Could not validate credentials")
                          (Some [(lit "WWW-Authenticate", lit "Bearer")]))).
Proof.
  intros r. subst r. unfold Lessons.get_current_user.
  destruct (jwt_decode token) as [payload|] eqn:Hdec.
  2: { split; [|by right]. intros user. split; [done|].
       by intros [(? & ? & ? & _) _]. }
  destruct (Lessons.dict_get (lit "sub") payload) as [sub|] eqn:Hsub.
  2: { split; [|by right]. intros user. split; [done|].
       intros [(pl & name & [= <-] & Hs & _) _]. congruence. }
  rewrite users_get_fake_users_db.
  destruct sub as [s|z].
  - destruct (decide (DU = Some s)) as [Hu|Hu].
    + split; [|left; by eexists]. intros user. split.
      * intros [= <-]. split; [|done]. by exists payload, s.
      * by intros [_ ->].
    + split; [|by right]. intros user. split; [done|].
      intros [(pl & name & [= <-] & Hs & Hname) _]. congruence.
  - split; [|by right]. intros user. split; [done|].
    intros [(pl & name & [= <-] & Hs & _) _]. congruence.
Qed.

(** X13. The lesson list only grows: after any history of lesson requests
    it is the list before followed by the lessons of the creations whose
    token [get_current_user] accepted, in the order of the requests and
    with repeated ids kept; [get_lessons] returns exactly that list, and a
    creation with a refused token changes nothing. *)
Theorem lessons_append_only (DU DP : option str)
    (jwt_decode : str → option (list (str * Lessons.jval)))
    (rs : list Lessons.lesson_request) (db : list Lessons.Lesson) :
  let db' := List.fold_left (Lessons.lesson_step DU DP jwt_decode) rs db in
  db' = db ++ Lessons.created DU DP jwt_decode rs
  ∧ Lessons.get_lessons db' = (Lessons.Ok db', db')
  ∧ (∀ token lesson,
       (∀ user, Lessons.get_current_user DU DP jwt_decode token
                  ≠ Lessons.Ok user) →
       (Lessons.create_lesson DU DP jwt_decode token lesson db').2 = db')
  ∧ (∀ token lesson user,
       Lessons.get_current_user DU DP jwt_decode token = Lessons.Ok user →
       Lessons.create_lesson DU DP jwt_decode token lesson db' =
         (Lessons.Ok lesson, db' ++ [lesson])).
Proof.
  intros db'. split; [|split; [done|split]].
  - subst db'. revert db. induction rs as [|r rs IH]; intros db.
    + cbn. by rewrite app_nil_r.
    + cbn [List.fold_left]. rewrite IH.
      destruct r as [|token lesson];
        cbn [Lessons.lesson_step Lessons.created Lessons.get_lessons snd];
        [done|].
      unfold Lessons.create_lesson.
      destruct (Lessons.get_current_user DU DP jwt_decode token);
        cbn [snd]; [|done..].
      by rewrite <- app_assoc.
  - intros token lesson Hno. unfold Lessons.create_lesson.
    destruct (Lessons.get_current_user DU DP jwt_decode token) as [u| |];
      [by destruct (Hno u)|done..].
  - intros token lesson user Hok. unfold Lessons.create_lesson.
    by rewrite Hok.
Qed.

Lemma lessons_append_only_witness :
  let dec := λ token : str,
    if decide (token = lit "good")
    then Some [(lit "sub", Lessons.JStr (lit "demo"))] else None in
  let lesson := {| Lessons.id := 1; Lessons.title := lit "Again";
                   Lessons.description := lit ""; Lessons.task := lit "";
                   Lessons.endpoint := lit "/lessons" |} in
  Lessons.get_current_user (Some (lit "demo")) (Some (lit "secret")) dec
    (lit "good")
  = Lessons.Ok {| Lessons.username := Some (lit "demo");
                  Lessons.hashed_password := Some (lit "secret") |}
  ∧ Lessons.create_lesson (Some (lit "demo")) (Some (lit "secret")) dec
      (lit "good") lesson Lessons.lessons_db0
    = (Lessons.Ok lesson, Lessons.lessons_db0 ++ [lesson]).
Proof.
  split; [reflexivity|].
  exact (proj2 (proj2 (proj2 (lessons_append_only (Some (lit "demo"))
           (Some (lit "secret"))
           (λ token : str,
              if decide (token = lit "good")
              then Some [(lit "sub", Lessons.JStr (lit "demo"))] else None)
           [] Lessons.lessons_db0))) (lit "good")
           {| Lessons.id := 1; Lessons.title := lit "Again";
              Lessons.description := lit ""; Lessons.task := lit "";
              Lessons.endpoint := lit "/lessons" |}
           _ eq_refl).
Defined.
